(** * WebOwl hybrid retrieval: a shallow embedding of the retriever code

    The development follows [KnowledgeRetriever.py] and
    [OfflineKnowledgeRetriever.py].  Python values are modelled as follows.

    - [str] is [string] (a list of ASCII characters); [None] in a string
      position is [option string].
    - [float] scores are exact rationals ([Q]); the statements below only use
      [+], [*], [/] and comparisons, and are read up to [Qeq].
    - a [dict] whose iteration order is observed (the accumulated scores of
      [hybrid_search]) is an association list in insertion order; a [dict]
      that is only looked up is a [gmap].
    - a raised exception is the [Raise] branch of [outcome].
    - the Neo4j store is a finite property graph; every Cypher text of the
      source is a function over it, and a [session.run] may fail.
    - the sentence embedder, the text splitter and the FAISS flat index are
      external; they are the fields of the class [VectorBackend].
    - [top_k] and [max_depth] are natural numbers: FAISS asks for a
      positive [k], and a negative bound is not a Cypher pattern.

    The module [Examples] holds a small concrete backend and a few stores
    on which the code is run. *)

From stdpp Require Import base option list gmap strings fin_maps sorting.
From Stdlib Require Import Ascii QArith.

Close Scope Q_scope.

(** ** Python primitives *)

Module Py.

(** Exceptions that the modelled code can raise. *)
Inductive exn :=
  | ValueError (msg : string)
  | KeyError
  | FileNotFoundError
  | OperationalError
  | DriverError.

Inductive outcome (A : Type) :=
  | Ret (a : A)
  | Raise (e : exn).
Arguments Ret {A} a.
Arguments Raise {A} e.

#[export] Instance outcome_ret : MRet outcome := fun A a => Ret a.
#[export] Instance outcome_bind : MBind outcome := fun A B f m =>
  match m with
  | Ret a => f a
  | Raise e => Raise e
  end.

Definition returns {A} (m : outcome A) : Prop := exists a, m = Ret a.
Definition raises {A} (m : outcome A) : Prop := exists e, m = Raise e.

(** Truth value of a string-or-None, as in [if x] and [x or y]. *)
Definition truthy (x : option string) : bool :=
  match x with
  | Some (String _ _) => true
  | _ => false
  end.

Definition py_or (x y : option string) : option string :=
  if truthy x then x else y.

(** [c.isspace()] on ASCII. *)
Definition isspace (c : ascii) : bool :=
  let n := nat_of_ascii c in
  (((9 <=? n) && (n <=? 13)) || ((28 <=? n) && (n <=? 32)))%nat.

(** [bool(s.strip())]: some character of [s] is not white space. *)
Fixpoint strip_nonempty (s : string) : bool :=
  match s with
  | EmptyString => false
  | String c r => negb (isspace c) || strip_nonempty r
  end.

(** [s.lower()] on ASCII. *)
Definition lower_ascii (c : ascii) : ascii :=
  let n := nat_of_ascii c in
  if ((65 <=? n) && (n <=? 90))%nat then ascii_of_nat (n + 32) else c.

Fixpoint lower (s : string) : string :=
  match s with
  | EmptyString => EmptyString
  | String c r => String (lower_ascii c) (lower r)
  end.

(** The class [\w] on ASCII: letters, digits and the underscore. *)
Definition is_word (c : ascii) : bool :=
  let n := nat_of_ascii c in
  (((48 <=? n) && (n <=? 57)) || ((65 <=? n) && (n <=? 90))
   || ((97 <=? n) && (n <=? 122)) || (n =? 95))%nat.

Definition flush (cur : string) : list string :=
  match cur with
  | EmptyString => []
  | _ => [cur]
  end.

(** [re.findall(r'\b\w+\b', s)]: the maximal runs of word characters of [s],
    left to right.  [cur] is the run being read. *)
Fixpoint findall_words_from (cur s : string) : list string :=
  match s with
  | EmptyString => flush cur
  | String c r =>
      if is_word c then findall_words_from (cur +:+ String c EmptyString) r
      else flush cur ++ findall_words_from EmptyString r
  end.

Definition findall_words (s : string) : list string :=
  findall_words_from EmptyString s.

(** [max(l, key=len)] keeps the first element of maximal length. *)
Fixpoint max_len_from (best : string) (l : list string) : string :=
  match l with
  | [] => best
  | x :: r =>
      if (String.length best <? String.length x)%nat then max_len_from x r
      else max_len_from best r
  end.

Definition max_by_len (l : list string) : option string :=
  match l with
  | [] => None
  | x :: r => Some (max_len_from x r)
  end.

(** Substring test, the meaning of [in] on strings and of Cypher's
    [CONTAINS]; it compares characters exactly, case included. *)
Fixpoint contains (hay needle : string) : bool :=
  String.prefix needle hay ||
  match hay with
  | EmptyString => false
  | String _ r => contains r needle
  end.

(** [sorted(l, key=..., reverse=True)]: a stable descending sort.  [ins]
    puts [x] in front of the first element whose key is not larger, so equal
    keys keep the order of the input. *)
Section Sorted.
Context {A : Type} (key : A -> Q).

Fixpoint ins (x : A) (l : list A) : list A :=
  match l with
  | [] => [x]
  | y :: r => if Qle_bool (key y) (key x) then x :: y :: r else y :: ins x r
  end.

Definition sorted_desc (l : list A) : list A := foldr ins [] l.
End Sorted.

End Py.
Export Py.

(** ** The Neo4j store and the Cypher texts of the source *)

Module Neo4j.

Inductive rel_type := LINKS_TO | CONTAINS | HAS_CHUNK.

(** A relationship points from node number [r_src] to node number [r_dst];
    its own identity is its position in [rels]. *)
Record rel := { r_type : rel_type; r_src : nat; r_dst : nat }.

Inductive node :=
  | PageNode (url : string) (title : option string)
  | AssetNode (url : string) (filename : option string) (type : option string)
  | ChunkNode (id : string) (text : option string) (modality : option string).

Record graph := { nodes : list node; rels : list rel }.

Definition node_url (n : node) : option string :=
  match n with
  | PageNode u _ => Some u
  | AssetNode u _ _ => Some u
  | ChunkNode _ _ _ => None
  end.

Definition node_title (n : node) : option string :=
  match n with
  | PageNode _ t => t
  | _ => None
  end.

(** [labels(n)[0]] *)
Definition node_label (n : node) : string :=
  match n with
  | PageNode _ _ => "Page"
  | AssetNode _ _ _ => "Asset"
  | ChunkNode _ _ _ => "Chunk"
  end.

Definition is_source (n : node) : bool :=
  match n with
  | ChunkNode _ _ _ => false
  | _ => true
  end.

(** *** Three-valued predicates: [None] is Cypher's null *)

Definition contains3 (s : option string) (term : string) : option bool :=
  (fun t => contains t term) <$> s.

Definition or3 (a b : option bool) : option bool :=
  match a, b with
  | Some true, _ | _, Some true => Some true
  | Some false, Some false => Some false
  | _, _ => None
  end.

(** A [WHERE] keeps a row only when its predicate is true. *)
Definition holds (a : option bool) : bool :=
  match a with
  | Some true => true
  | _ => false
  end.

Definition coalesce (a b : option string) : option string :=
  match a with
  | Some _ => a
  | None => b
  end.

(** [OPTIONAL MATCH]: one row per match, or a single row of nulls. *)
Definition optional {A} (l : list A) : list (option A) :=
  match l with
  | [] => [None]
  | _ => Some <$> l
  end.

(** *** Variable-length pattern [(start)-[:LINKS_TO|CONTAINS*1..d]-(end)] *)

Definition walkable (t : rel_type) : bool :=
  match t with
  | LINKS_TO | CONTAINS => true
  | HAS_CHUNK => false
  end.

(** The far end of relationship [r] seen from [cur], in either direction. *)
Definition other_end (r : rel) (cur : nat) : option nat :=
  if decide (r_src r = cur) then Some (r_dst r)
  else if decide (r_dst r = cur) then Some (r_src r)
  else None.

(** One hop from [cur] over a relationship not used on the path so far. *)
Definition steps (g : graph) (used : list nat) (cur : nat) : list (nat * nat) :=
  omap (fun '(i, r) =>
          if walkable (r_type r) && bool_decide (i ∉ used)
          then (fun n => (i, n)) <$> other_end r cur
          else None)
       (imap (fun i r => (i, r)) (rels g)).

(** A path is the list of its nodes, start first, and the list of the
    relationships it went over. *)
Definition path : Type := list nat * list nat.

(** Every path of 1 to [d] further hops that extends [(ns, rs)], which
    ends in [cur]; no relationship occurs twice on a path. *)
Fixpoint trails (g : graph) (d : nat) (ns rs : list nat) (cur : nat) : list path :=
  match d with
  | 0 => []
  | S d' =>
      '(i, nxt) ← steps g rs cur;
      (ns ++ [nxt], rs ++ [i]) :: trails g d' (ns ++ [nxt]) (rs ++ [i]) nxt
  end.

(** The same paths, declaratively. *)
Definition hop (g : graph) (i m n : nat) : Prop :=
  exists r, rels g !! i = Some r /\ walkable (r_type r) = true /\
            other_end r m = Some n.

Inductive Trail (g : graph) (s : nat) : list nat -> list nat -> nat -> Prop :=
  | Trail_nil : Trail g s [s] [] s
  | Trail_snoc ns rs m i n :
      Trail g s ns rs m -> i ∉ rs -> hop g i m n ->
      Trail g s (ns ++ [n]) (rs ++ [i]) n.

(** *** Result rows *)

Record walk_row := {
  w_chunk_id : option string;
  w_text : option string;
  w_modality : option string;
  w_source_url : option string;
  w_source_title : option string;
  w_source_type : string;
  w_depth : nat;
  w_path_urls : list (option string) }.

#[export] Instance walk_row_eq_dec : EqDecision walk_row.
Proof. solve_decision. Defined.

(** [MATCH (start:Page {url: url})] *)
Definition pages_with_url (g : graph) (url : string) : list nat :=
  omap (fun '(i, n) =>
          match n with
          | PageNode u _ => if decide (u = url) then Some i else None
          | _ => None
          end)
       (imap (fun i n => (i, n)) (nodes g)).

(** [(e)-[:HAS_CHUNK]->(c:Chunk)]: the chunks owned by node [e]. *)
Definition chunks_of (g : graph) (e : nat)
  : list (string * option string * option string) :=
  omap (fun r =>
          match r_type r with
          | HAS_CHUNK =>
              if decide (r_src r = e) then
                match nodes g !! r_dst r with
                | Some (ChunkNode id t m) => Some (id, t, m)
                | _ => None
                end
              else None
          | _ => None
          end)
       (rels g).

(** [(x)-[:HAS_CHUNK]->(c)]: the nodes that own chunk number [c]. *)
Definition owners (g : graph) (c : nat) : list node :=
  omap (fun r =>
          match r_type r with
          | HAS_CHUNK => if decide (r_dst r = c) then nodes g !! r_src r else None
          | _ => None
          end)
       (rels g).

Definition is_page (n : node) : bool :=
  match n with PageNode _ _ => true | _ => false end.

Definition is_asset (n : node) : bool :=
  match n with AssetNode _ _ _ => true | _ => false end.

(** [RETURN DISTINCT ... ORDER BY depth, c.id]: ascending, nulls last. *)
Definition row_le (a b : walk_row) : bool :=
  if (w_depth a <? w_depth b)%nat then true
  else if (w_depth b <? w_depth a)%nat then false
  else match w_chunk_id a, w_chunk_id b with
       | Some x, Some y => String.leb x y
       | Some _, None => true
       | None, Some _ => false
       | None, None => true
       end.

Fixpoint insert_row (x : walk_row) (l : list walk_row) : list walk_row :=
  match l with
  | [] => [x]
  | y :: r => if row_le x y then x :: y :: r else y :: insert_row x r
  end.

Definition order_by (l : list walk_row) : list walk_row := foldr insert_row [] l.

(** [[node in nodes(path) | node.url]] *)
Definition path_urls (g : graph) (ns : list nat) : list (option string) :=
  (fun i => nodes g !! i ≫= node_url) <$> ns.

(** The rows of one path before [DISTINCT]: the end node must be a page or
    an asset; its chunks are matched optionally under the [WHERE]. *)
Definition rows_of_path (g : graph) (term : string) (p : path) : list walk_row :=
  match last (p.1) with
  | None => []
  | Some e =>
      match nodes g !! e with
      | None => []
      | Some en =>
          if is_source en then
            (fun c : option (string * option string * option string) =>
               {| w_chunk_id := (fun x => x.1.1) <$> c;
                  w_text := c ≫= (fun x => x.1.2);
                  w_modality := c ≫= (fun x => x.2);
                  w_source_url := node_url en;
                  w_source_title := node_title en;
                  w_source_type := node_label en;
                  w_depth := length (p.2);
                  w_path_urls := path_urls g (p.1) |})
            <$> optional
                  (filter (fun c => holds (or3 (contains3 (c.1.2) term)
                                               (contains3 (node_title en) term)) = true)
                          (chunks_of g e))
          else []
      end
  end.

(** The seeded query of [graph_walk_search]. *)
Definition seeded_rows (max_depth : nat) (start_urls : list string)
    (term : string) (g : graph) : list walk_row :=
  url ← start_urls;
  start ← pages_with_url g url;
  p ← trails g max_depth [start] [] start;
  rows_of_path g term p.

Definition seeded_walk (max_depth : nat) (start_urls : list string)
    (term : string) (g : graph) : list walk_row :=
  order_by (remove_dups (seeded_rows max_depth start_urls term g)).

(** The global query of [graph_walk_search]. *)
Definition global_scan (term : string) (g : graph) : list walk_row :=
  '(ci, n) ← imap (fun i n => (i, n)) (nodes g);
  match n with
  | ChunkNode id t m =>
      if holds (contains3 t term) then
        p ← optional (filter (fun x => is_page x = true) (owners g ci));
        a ← optional (filter (fun x => is_asset x = true) (owners g ci));
        [ {| w_chunk_id := Some id;
             w_text := t;
             w_modality := m;
             w_source_url := coalesce (p ≫= node_url) (a ≫= node_url);
             w_source_title :=
               coalesce (p ≫= node_url)
                        (a ≫= fun x => match x with
                                       | AssetNode _ f _ => f
                                       | _ => None
                                       end);
             w_source_type := match p with Some _ => "Page" | None => "Asset" end;
             w_depth := 0;
             w_path_urls := [] |} ]
      else []
  | _ => []
  end.

(** [MATCH (c:Chunk) RETURN c.id, c.text, c.modality] *)
Definition all_chunks (g : graph)
  : list (string * option string * option string) :=
  omap (fun n => match n with
                 | ChunkNode id t m => Some (id, t, m)
                 | _ => None
                 end)
       (nodes g).

Record detail_row := {
  d_chunk_id : string;
  d_text : option string;
  d_modality : option string;
  d_page_url : option string;
  d_page_title : option string;
  d_asset_url : option string;
  d_asset_filename : option string;
  d_asset_type : option string }.

(** The chunk lookup of [semantic_search]; [page_title] is [p.url] there. *)
Definition chunk_details (chunk_ids : list string) (g : graph) : list detail_row :=
  cid ← chunk_ids;
  '(ci, n) ← imap (fun i n => (i, n)) (nodes g);
  match n with
  | ChunkNode id t m =>
      if decide (id = cid) then
        p ← optional (filter (fun x => is_page x = true) (owners g ci));
        a ← optional (filter (fun x => is_asset x = true) (owners g ci));
        [ {| d_chunk_id := id;
             d_text := t;
             d_modality := m;
             d_page_url := p ≫= node_url;
             d_page_title := p ≫= node_url;
             d_asset_url := a ≫= node_url;
             d_asset_filename :=
               a ≫= (fun x => match x with AssetNode _ f _ => f | _ => None end);
             d_asset_type :=
               a ≫= (fun x => match x with AssetNode _ _ ty => ty | _ => None end) |} ]
      else []
  | _ => []
  end.

Record asset_row := {
  a_url : option string;
  a_type : option string;
  a_filename : option string }.

(** [MATCH (p:Page {url: $page_url})-[:CONTAINS]->(a:Asset) ... LIMIT 5] *)
Definition related_assets_of (page_url : option string) (g : graph) : list asset_row :=
  match page_url with
  | None => []
  | Some url =>
      take 5
        (p ← pages_with_url g url;
         omap (fun r =>
                 match r_type r with
                 | CONTAINS =>
                     if decide (r_src r = p) then
                       match nodes g !! r_dst r with
                       | Some (AssetNode u f ty) =>
                           Some {| a_url := Some u; a_type := ty; a_filename := f |}
                       | _ => None
                       end
                     else None
                 | _ => None
                 end)
              (rels g))
  end.

(** The driver: a store, and for each query of the source whether running
    it fails. *)
Inductive query :=
  | QAllChunks | QChunkDetails | QSeededWalk | QGlobalScan | QRelatedAssets.

Record neo4j_driver := { store : graph; fault : query -> option exn }.

(** [session.run(...)] followed by reading the rows. *)
Definition run {A} (d : neo4j_driver) (q : query) (eval : graph -> A) : outcome A :=
  match fault d q with
  | Some e => Raise e
  | None => Ret (eval (store d))
  end.

End Neo4j.
Export Neo4j.

(** ** The external vector machinery *)

(** [encode] is the sentence embedder followed by [faiss.normalize_L2];
    [ip_search vs q k] is [IndexFlatIP.search] over the stored vectors [vs]:
    a row of [(score, label)] pairs, where a label is a position in [vs] or
    the padding value [-1]; [split_text] is the
    [RecursiveCharacterTextSplitter(chunk_size=500, chunk_overlap=50)]. *)
Class VectorBackend := {
  embedding : Type;
  encode : string -> embedding;
  ip_search : list embedding -> embedding -> nat -> list (Q * Z);
  split_text : string -> list string }.

(** ** KnowledgeRetriever.py *)

Module KnowledgeRetriever.

Record RetrievedChunk := {
  chunk_id : option string;
  text : option string;
  modality : option string;
  score : Q;
  source_url : option string;
  source_type : string;
  source_title : option string;
  context_path : option (list (option string));
  related_assets : option (list asset_row) }.

Definition set_score (c : RetrievedChunk) (s : Q) : RetrievedChunk :=
  {| chunk_id := chunk_id c; text := text c; modality := modality c;
     score := s; source_url := source_url c; source_type := source_type c;
     source_title := source_title c; context_path := context_path c;
     related_assets := related_assets c |}.

Definition set_context_path (c : RetrievedChunk)
    (p : option (list (option string))) : RetrievedChunk :=
  {| chunk_id := chunk_id c; text := text c; modality := modality c;
     score := score c; source_url := source_url c; source_type := source_type c;
     source_title := source_title c; context_path := p;
     related_assets := related_assets c |}.

Definition set_related_assets (c : RetrievedChunk)
    (a : option (list asset_row)) : RetrievedChunk :=
  {| chunk_id := chunk_id c; text := text c; modality := modality c;
     score := score c; source_url := source_url c; source_type := source_type c;
     source_title := source_title c; context_path := context_path c;
     related_assets := a |}.

(** Truth value of a list-or-None. *)
Definition nonempty {A} (x : option (list A)) : bool :=
  match x with
  | Some (_ :: _) => true
  | _ => false
  end.

Section WithBackend.
Context `{VectorBackend}.

Record retriever := {
driver : neo4j_driver;
faiss_index : option (list embedding);
chunk_id_to_index : gmap string (list Z);
index_to_chunk_id : gmap Z string }.

(** [__init__] *)
Definition init (d : neo4j_driver) : retriever :=
{| driver := d; faiss_index := None;
   chunk_id_to_index := ∅; index_to_chunk_id := ∅ |}.

(** The two parallel lists of [build_vector_index], as pairs
  [(split_text, chunk_id)]. *)
Definition collect_splits (chunks : list (string * option string * option string))
: list (string * string) :=
'(cid, t, _) ← chunks;
match t with
| Some s =>
    if strip_nonempty s then
      (fun sp => (sp, cid)) <$>
        filter (fun sp => strip_nonempty sp = true) (split_text s)
    else []
| None => []
end.

Definition build_vector_index (r : retriever) : outcome retriever :=
chunks ← run (driver r) QAllChunks all_chunks;
match chunks with
| [] => mret r
| _ =>
    let splits := collect_splits chunks in
    let all_split_texts := fst <$> splits in
    let split_to_chunk_mapping := snd <$> splits in
    match all_split_texts with
    | [] => mret r
    | _ =>
        let numbered := imap (fun i c => (Z.of_nat i, c)) split_to_chunk_mapping in
        mret {| driver := driver r;
                faiss_index := Some (encode <$> all_split_texts);
                chunk_id_to_index :=
                  foldl (fun m '(idx, c) => <[c := default [] (m !! c) ++ [idx]]> m)
                        ∅ numbered;
                index_to_chunk_id :=
                  foldl (fun m '(idx, c) => <[idx := c]> m) ∅ numbered |}
    end
end.

(** [self.index_to_chunk_id[idx]] *)
Definition getitem (m : gmap Z string) (idx : Z) : outcome string :=
match m !! idx with
| Some c => Ret c
| None => Raise KeyError
end.

Definition result_of_row (cid : string) (s : Q) (data : detail_row) : RetrievedChunk :=
{| chunk_id := Some cid;
   text := d_text data;
   modality := d_modality data;
   score := s;
   source_url := py_or (d_page_url data) (d_asset_url data);
   source_type := if truthy (d_page_url data) then "page" else "asset";
   source_title := py_or (d_page_title data) (d_asset_filename data);
   context_path := None;
   related_assets := None |}.

Definition semantic_search (r : retriever) (query : string) (top_k : nat)
: outcome (list RetrievedChunk) :=
match faiss_index r with
| None => Raise (ValueError "Vector index not built. Call build_vector_index() first.")
| Some vectors =>
    let hits := ip_search vectors (encode query) top_k in
    chunk_ids ← mapM (fun h => getitem (index_to_chunk_id r) (h.2)) hits;
    rows ← run (driver r) QChunkDetails (chunk_details chunk_ids);
    let chunk_data : gmap string detail_row :=
      foldl (fun m row => <[d_chunk_id row := row]> m) ∅ rows in
    mret (omap (fun '(s, cid) => result_of_row cid s <$> chunk_data !! cid)
               (zip (fst <$> hits) chunk_ids))
end.

(** The keyword of [graph_walk_search]. *)
Definition main_term (query : string) : string :=
default query (max_by_len (findall_words (lower query))).

Definition chunk_of_row (row : walk_row) : RetrievedChunk :=
{| chunk_id := w_chunk_id row;
   text := w_text row;
   modality := w_modality row;
   score := (1 / inject_Z (Z.of_nat (w_depth row) + 1))%Q;
   source_url := w_source_url row;
   source_type := lower (w_source_type row);
   source_title := w_source_title row;
   context_path := Some (w_path_urls row);
   related_assets := None |}.

Definition graph_walk_search (r : retriever) (query : string)
  (start_urls : option (list string)) (max_depth : nat)
: outcome (list RetrievedChunk) :=
let term := main_term query in
let result : outcome (list walk_row) :=
  if nonempty start_urls
  then run (driver r) QSeededWalk
           (seeded_walk max_depth (default [] start_urls) term)
  else run (driver r) QGlobalScan (global_scan term) in
rows ← result;
mret (chunk_of_row <$> (rows : list walk_row)).

(** One turn of the loop of [multimodal_search]. *)
Definition enhance (r : retriever) (include_assets : bool) (chunk : RetrievedChunk)
: outcome RetrievedChunk :=
if bool_decide (source_type chunk = "page") && include_assets then
  assets ← run (driver r) QRelatedAssets (related_assets_of (source_url chunk));
  mret (set_related_assets chunk
          (match assets with [] => None | _ => Some assets end))
else mret chunk.

Definition multimodal_search (r : retriever) (query : string)
  (include_assets : bool) (top_k : nat) : outcome (list RetrievedChunk) :=
semantic_results ← semantic_search r query top_k;
mapM (enhance r include_assets) semantic_results.

End WithBackend.

(** *** The fusion step of [hybrid_search] *)

(** [combined_scores[k] += x] on a [defaultdict(float)]: a new key is put
    last and starts from [0]; a known key keeps its place. *)
Fixpoint add_score (k : option string) (x : Q) (d : list (option string * Q))
  : list (option string * Q) :=
  match d with
  | [] => [(k, (0 + x)%Q)]
  | (k', v) :: rest =>
      if decide (k' = k) then (k', (v + x)%Q) :: rest
      else (k', v) :: add_score k x rest
  end.

Definition fusion_state : Type :=
  list (option string * Q) * gmap (option string) RetrievedChunk.

Definition add_semantic (semantic_weight : Q) (st : fusion_state)
    (chunk : RetrievedChunk) : fusion_state :=
  (add_score (chunk_id chunk) (score chunk * semantic_weight)%Q st.1,
   <[chunk_id chunk := chunk]> (st.2)).

Definition add_graph (graph_weight : Q) (st : fusion_state)
    (chunk : RetrievedChunk) : fusion_state :=
  (add_score (chunk_id chunk) (score chunk * graph_weight)%Q st.1,
   match st.2 !! chunk_id chunk with
   | None => <[chunk_id chunk := chunk]> (st.2)
   | Some old =>
       if nonempty (context_path chunk) && negb (nonempty (context_path old))
       then <[chunk_id chunk := set_context_path old (context_path chunk)]> (st.2)
       else st.2
   end).

Definition accumulate (semantic_results graph_results : list RetrievedChunk)
    (semantic_weight graph_weight : Q) : fusion_state :=
  foldl (add_graph graph_weight)
        (foldl (add_semantic semantic_weight) ([], ∅) semantic_results)
        graph_results.

(** Lines 246 to 278 of the source. *)
Definition fuse (semantic_results graph_results : list RetrievedChunk)
    (semantic_weight graph_weight : Q) (top_k : nat)
  : outcome (list RetrievedChunk) :=
  let '(combined_scores, all_chunks) :=
    accumulate semantic_results graph_results semantic_weight graph_weight in
  let sorted_chunks := take top_k (sorted_desc snd combined_scores) in
  mapM (fun '(cid, s) =>
          match all_chunks !! cid with
          | Some chunk => Ret (set_score chunk s)
          | None => Raise KeyError
          end)
       sorted_chunks.

Definition hybrid_search `{VectorBackend} (r : retriever) (query : string)
    (semantic_weight graph_weight : Q) (top_k : nat)
  : outcome (list RetrievedChunk) :=
  semantic_results ← semantic_search r query (top_k * 2);
  graph_results ← graph_walk_search r query None 2;
  fuse semantic_results graph_results semantic_weight graph_weight top_k.

End KnowledgeRetriever.
Export KnowledgeRetriever.

(** ** OfflineKnowledgeRetriever.py *)

Module OfflineKnowledgeRetriever.

(** One row of the SQLite table [chunks], column by column. *)
Record db_row := {
  col_chunk_id : string;
  col_text : option string;
  col_modality : option string;
  col_page_url : option string;
  col_asset_url : option string;
  col_asset_filename : option string;
  col_asset_type : option string;
  col_source_url : option string;
  col_source_type : option string;
  col_source_title : option string }.

Record config := { total_chunks : nat; index_size : nat }.

(** The result dictionaries of [search]. *)
Record hit := {
  hit_chunk_id : string;
  hit_text : option string;
  hit_modality : option string;
  hit_source_url : option string;
  hit_source_type : option string;
  hit_source_title : option string;
  hit_score : Q }.

Section WithBackend.
Context `{VectorBackend}.

(** The files under one index path; [None] is a file that is not there.
  The decoded [mappings.json] is the pair of its two dictionaries, with
  the keys of the first already turned back into integers. *)
Record index_dir := {
faiss_index_bin : option (list embedding);
mappings_json : option (gmap Z string * gmap string (list Z));
chunks_db : option (list db_row);
config_json : option config }.

Record offline_retriever := {
embedder : option string;
faiss_index : option (list embedding);
index_to_chunk_id : gmap Z string;
chunk_id_to_index : gmap string (list Z);
index_path : string }.

(** [__init__] *)
Definition init (path : option string) : offline_retriever :=
{| embedder := None; faiss_index := None;
   index_to_chunk_id := ∅; chunk_id_to_index := ∅;
   index_path := default "retriever_offline" (py_or path None) |}.

(** [load_offline]: the retriever after the call and the returned [True]. *)
Definition load_offline (fs : gmap string index_dir) (self : offline_retriever)
  (path : option string) : outcome (offline_retriever * bool) :=
let index_path' := default (index_path self) (py_or path None) in
match fs !! index_path' with
| None => Raise FileNotFoundError
| Some dir =>
    let faiss_index' :=
      match faiss_index_bin dir with
      | Some ix => Some ix
      | None => faiss_index self
      end in
    match mappings_json dir with
    | None => Raise FileNotFoundError
    | Some mappings =>
        match config_json dir with
        | None => Raise FileNotFoundError
        | Some _ =>
            Ret ({| embedder := Some "all-MiniLM-L6-v2";
                    faiss_index := faiss_index';
                    index_to_chunk_id := mappings.1;
                    chunk_id_to_index := mappings.2;
                    index_path := index_path' |}, true)
        end
    end
end.

(** [cursor.execute("SELECT * FROM chunks WHERE chunk_id = ?")] and
  [cursor.fetchone()]; a database without the table cannot be queried. *)
Definition fetch_chunk (table : option (list db_row)) (cid : string)
: outcome (option db_row) :=
match table with
| None => Raise OperationalError
| Some rows => Ret (head (filter (fun row => col_chunk_id row = cid) rows))
end.

Definition hit_of_row (row : db_row) (s : Q) : hit :=
{| hit_chunk_id := col_chunk_id row;
   hit_text := col_text row;
   hit_modality := col_modality row;
   hit_source_url := col_source_url row;
   hit_source_type := col_source_type row;
   hit_source_title := col_source_title row;
   hit_score := s |}.

(** One turn of the loop of [search], for the label [idx] scored [s]. *)
Definition visit (self : offline_retriever) (table : option (list db_row))
  (results : list hit) (h : Q * Z) : outcome (list hit) :=
let '(s, idx) := h in
if bool_decide (is_Some (index_to_chunk_id self !! idx)) then
  cid ← getitem (index_to_chunk_id self) idx;
  row ← fetch_chunk table cid;
  match row with
  | Some row => mret (results ++ [hit_of_row row s])
  | None => mret results
  end
else mret results.

Fixpoint visit_all (self : offline_retriever) (table : option (list db_row))
  (results : list hit) (hits : list (Q * Z)) : outcome (list hit) :=
match hits with
| [] => mret results
| h :: rest =>
    results' ← visit self table results h;
    visit_all self table results' rest
end.

Definition search (fs : gmap string index_dir) (self : offline_retriever)
  (query : string) (top_k : nat) : outcome (list hit) :=
match faiss_index self, embedder self with
| Some vectors, Some _ =>
    let hits := ip_search vectors (encode query) top_k in
    match fs !! index_path self with
    | None => Raise OperationalError
    | Some dir => visit_all self (chunks_db dir) [] hits
    end
| _, _ => Raise (ValueError "Retriever not properly loaded. Call load_offline() first.")
end.

End WithBackend.

End OfflineKnowledgeRetriever.

(** ** A concrete backend and store, used to run the code on examples *)

Module Examples.

Definition dot (u v : list Q) : Q := foldr Qplus 0%Q (zip_with Qmult u v).

(** Exact inner-product search: every stored vector is scored against the
    query, the [k] best are returned in descending order, and the row is
    padded with the label [-1] when fewer than [k] vectors are stored. *)
Definition flat_ip_search (vs : list (list Q)) (q : list Q) (k : nat)
  : list (Q * Z) :=
  let scored := imap (fun i v => (dot v q, Z.of_nat i)) vs in
  let top := take k (sorted_desc fst scored) in
  top ++ replicate (k - length top)
                   ((- (340282346638528859811704183484516925440 # 1))%Q, (-1)%Z).

(** Character windows of [size] characters, each starting [size - overlap]
    characters after the previous one. *)
Fixpoint windows (fuel size overlap : nat) (s : string) : list string :=
  match fuel with
  | 0 => []
  | S fuel' =>
      if (String.length s <=? size)%nat then [s]
      else String.substring 0 size s ::
           windows fuel' size overlap
                   (String.substring (size - overlap) (String.length s) s)
  end.

(** A bag-of-keywords embedder over three words. *)
Definition keyword_vector (s : string) : list Q :=
  (fun w => if contains (lower s) w then 1%Q else 0%Q) <$> ["cats"; "dogs"; "rust"].

Definition backend : VectorBackend :=
  {| embedding := list Q;
     encode := keyword_vector;
     ip_search := flat_ip_search;
     split_text := fun s => windows (String.length s) 500 50 s |}.

Fixpoint repeat_string (n : nat) (s : string) : string :=
  match n with
  | 0 => EmptyString
  | S n' => s +:+ repeat_string n' s
  end.

Definition healthy (g : graph) : neo4j_driver :=
  {| store := g; fault := fun _ => None |}.

(** The cycle [PageA -LINKS_TO-> PageB -LINKS_TO-> PageA]; each page owns a
    chunk that mentions cats. *)
Definition cycle : graph :=
  {| nodes := [PageNode "PageA" (Some "home"); PageNode "PageB" (Some "about");
               ChunkNode "a1" (Some "cats at home") (Some "text");
               ChunkNode "b1" (Some "cats elsewhere") (Some "text")];
     rels := [ {| r_type := LINKS_TO; r_src := 0; r_dst := 1 |};
               {| r_type := LINKS_TO; r_src := 1; r_dst := 0 |};
               {| r_type := HAS_CHUNK; r_src := 0; r_dst := 2 |};
               {| r_type := HAS_CHUNK; r_src := 1; r_dst := 3 |} ] |}.

(** One page with a long chunk (1020 characters, three splits) and a short
    one. *)
Definition corpus : graph :=
  {| nodes := [PageNode "https://site/pets" (Some "Pets");
               ChunkNode "c1" (Some (repeat_string 60 "cats are mammals ")) (Some "text");
               ChunkNode "c2" (Some "rust is a language") (Some "text");
               AssetNode "https://site/cat.png" (Some "cat.png") (Some "image")];
     rels := [ {| r_type := HAS_CHUNK; r_src := 0; r_dst := 1 |};
               {| r_type := HAS_CHUNK; r_src := 0; r_dst := 2 |};
               {| r_type := CONTAINS; r_src := 0; r_dst := 3 |} ] |}.

(** A page whose only chunk spells the word with a capital. *)
Definition capitalised : graph :=
  {| nodes := [PageNode "PageA" (Some "Index"); PageNode "PageB" (Some "Pets");
               ChunkNode "m1" (Some "Cats are mammals") (Some "text")];
     rels := [ {| r_type := LINKS_TO; r_src := 0; r_dst := 1 |};
               {| r_type := HAS_CHUNK; r_src := 1; r_dst := 2 |} ] |}.

Definition empty_store : graph := {| nodes := []; rels := [] |}.

Definition mk (id : string) (s : Q) : RetrievedChunk :=
  {| chunk_id := Some id; text := Some id; modality := Some "text"; score := s;
     source_url := Some "https://site/pets"; source_type := "page";
     source_title := Some "https://site/pets";
     context_path := None; related_assets := None |}.

(** The retriever after indexing [corpus]: four splits, three of them cut
    from chunk [c1]. *)
Definition indexed : retriever (H := backend) :=
  match build_vector_index (init (healthy corpus)) with
  | Ret r => r
  | Raise _ => init (healthy corpus)
  end.

(** Two ways from PageA to PageB: directly, and through PageC. *)
Definition triangle : graph :=
  {| nodes := [PageNode "PageA" (Some "home"); PageNode "PageB" (Some "about");
               PageNode "PageC" (Some "news");
               ChunkNode "b1" (Some "cats elsewhere") (Some "text")];
     rels := [ {| r_type := LINKS_TO; r_src := 0; r_dst := 1 |};
               {| r_type := LINKS_TO; r_src := 0; r_dst := 2 |};
               {| r_type := LINKS_TO; r_src := 2; r_dst := 1 |};
               {| r_type := HAS_CHUNK; r_src := 1; r_dst := 3 |} ] |}.

(** A store whose only chunk is white space. *)
Definition blank_corpus : graph :=
  {| nodes := [PageNode "PageA" (Some "home"); ChunkNode "w1" (Some "   ") (Some "text")];
     rels := [ {| r_type := HAS_CHUNK; r_src := 0; r_dst := 1 |} ] |}.

(** The indexed retriever on a connection whose related-assets query
    fails. *)
Definition flaky : retriever (H := backend) :=
  {| driver := {| store := corpus;
                  fault := fun q => match q with
                                    | QRelatedAssets => Some DriverError
                                    | _ => None
                                    end |};
     faiss_index := faiss_index indexed;
     chunk_id_to_index := chunk_id_to_index indexed;
     index_to_chunk_id := index_to_chunk_id indexed |}.

(** An index directory with two vectors, one mapping entry and one
    metadata row. *)
Definition mismatched : OfflineKnowledgeRetriever.index_dir (H := backend) :=
  {| OfflineKnowledgeRetriever.faiss_index_bin :=
       Some (keyword_vector <$> ["cats are mammals"; "rust is a language"]);
     OfflineKnowledgeRetriever.mappings_json :=
       Some ({[ 0%Z := "c1" ]}, {[ "c1" := [0%Z] ]});
     OfflineKnowledgeRetriever.chunks_db :=
       Some [ {| OfflineKnowledgeRetriever.col_chunk_id := "c1";
                 OfflineKnowledgeRetriever.col_text := Some "cats are mammals";
                 OfflineKnowledgeRetriever.col_modality := Some "text";
                 OfflineKnowledgeRetriever.col_page_url := Some "https://site/pets";
                 OfflineKnowledgeRetriever.col_asset_url := None;
                 OfflineKnowledgeRetriever.col_asset_filename := None;
                 OfflineKnowledgeRetriever.col_asset_type := None;
                 OfflineKnowledgeRetriever.col_source_url := Some "https://site/pets";
                 OfflineKnowledgeRetriever.col_source_type := Some "page";
                 OfflineKnowledgeRetriever.col_source_title := Some "https://site/pets" |} ];
     OfflineKnowledgeRetriever.config_json :=
       Some {| OfflineKnowledgeRetriever.total_chunks := 1;
               OfflineKnowledgeRetriever.index_size := 1 |} |}.

Definition disk : gmap string (OfflineKnowledgeRetriever.index_dir (H := backend)) :=
  {[ "retriever_offline" := mismatched ]}.

(** The offline retriever after [load_offline("retriever_offline")]. *)
Definition loaded : OfflineKnowledgeRetriever.offline_retriever (H := backend) :=
  match OfflineKnowledgeRetriever.load_offline disk
          (OfflineKnowledgeRetriever.init None) (Some "retriever_offline") with
  | Ret (self, _) => self
  | Raise _ => OfflineKnowledgeRetriever.init None
  end.

End Examples.


(** ** OfflineKnowledgeRetriever.py: export, save and statistics *)

Module OfflineExport.

Module OKR := OfflineKnowledgeRetriever.

(** One value of the dictionary [chunk_metadata]. *)
Record metadata := {
  md_text : option string;
  md_modality : option string;
  md_page_url : option string;
  md_asset_url : option string;
  md_asset_filename : option string;
  md_asset_type : option string }.

(** [d[k] = v] on a dictionary kept in insertion order. *)
Fixpoint dict_set (k : string) (v : metadata) (d : list (string * metadata))
  : list (string * metadata) :=
  match d with
  | [] => [(k, v)]
  | (k', v') :: rest =>
      if decide (k' = k) then (k', v) :: rest else (k', v') :: dict_set k v rest
  end.

(** The rows of the export query of [load_from_online_retriever]:
    [MATCH (c:Chunk) OPTIONAL MATCH (p:Page)-[:HAS_CHUNK]->(c)
     OPTIONAL MATCH (a:Asset)-[:HAS_CHUNK]->(c) RETURN ...]. *)
Definition export_rows (g : graph) : list (string * metadata) :=
  '(ci, n) ← imap (fun i n => (i, n)) (nodes g);
  match n with
  | ChunkNode id t m =>
      p ← optional (filter (fun x => is_page x = true) (owners g ci));
      a ← optional (filter (fun x => is_asset x = true) (owners g ci));
      [ (id, {| md_text := t;
                md_modality := m;
                md_page_url := p ≫= node_url;
                md_asset_url := a ≫= node_url;
                md_asset_filename :=
                  a ≫= (fun x => match x with AssetNode _ f _ => f | _ => None end);
                md_asset_type :=
                  a ≫= (fun x => match x with AssetNode _ _ ty => ty | _ => None end) |}) ]
  | _ => []
  end.

(** The row that [save_offline] writes for one entry of [chunk_metadata]. *)
Definition row_of (entry : string * metadata) : OKR.db_row :=
  let '(chunk_id, data) := entry in
  {| OKR.col_chunk_id := chunk_id;
     OKR.col_text := md_text data;
     OKR.col_modality := md_modality data;
     OKR.col_page_url := md_page_url data;
     OKR.col_asset_url := md_asset_url data;
     OKR.col_asset_filename := md_asset_filename data;
     OKR.col_asset_type := md_asset_type data;
     OKR.col_source_url := py_or (md_page_url data) (md_asset_url data);
     OKR.col_source_type := Some (if truthy (md_page_url data) then "page" else "asset");
     OKR.col_source_title := py_or (md_page_url data) (md_asset_filename data) |}.

(** [INSERT OR REPLACE INTO chunks ...] under the primary key [chunk_id]. *)
Definition insert_or_replace (table : list OKR.db_row) (row : OKR.db_row)
  : list OKR.db_row :=
  filter (fun old => OKR.col_chunk_id old <> OKR.col_chunk_id row) table ++ [row].

Section WithBackend.
Context `{VectorBackend}.

(** The Python object: the fields of [offline_retriever] and the dictionary
    [chunk_metadata]. *)
Record exporter := {
  base : OKR.offline_retriever;
  chunk_metadata : list (string * metadata) }.

(** [OfflineKnowledgeRetriever(index_path)] *)
Definition new (path : option string) : exporter :=
  {| base := OKR.init path; chunk_metadata := [] |}.

(** [load_from_online_retriever]; [export_fault] tells whether the export
    query fails on the connection of the online retriever. *)
Definition load_from_online_retriever (export_fault : option exn)
    (self : exporter) (online_retriever : retriever) : outcome exporter :=
  match export_fault with
  | Some e => Raise e
  | None =>
      Ret {| base :=
               {| OKR.embedder := Some "all-MiniLM-L6-v2";
                  OKR.faiss_index := faiss_index online_retriever;
                  OKR.index_to_chunk_id := index_to_chunk_id online_retriever;
                  OKR.chunk_id_to_index := chunk_id_to_index online_retriever;
                  OKR.index_path := OKR.index_path (base self) |};
             chunk_metadata :=
               foldl (fun d '(chunk_id, data) => dict_set chunk_id data d)
                     (chunk_metadata self)
                     (export_rows (store (driver online_retriever))) |}
  end.

Definition empty_dir : OKR.index_dir :=
  {| OKR.faiss_index_bin := None; OKR.mappings_json := None;
     OKR.chunks_db := None; OKR.config_json := None |}.

(** [save_offline]: the file system and the object after the call, and the
    returned path. *)
Definition save_offline (fs : gmap string OKR.index_dir) (self : exporter)
    (base_path : option string)
  : gmap string OKR.index_dir * exporter * string :=
  let index_path' := default (OKR.index_path (base self)) (py_or base_path None) in
  let dir := default empty_dir (fs !! index_path') in
  let dir' :=
    {| OKR.faiss_index_bin :=
         match OKR.faiss_index (base self) with
         | Some ix => Some ix
         | None => OKR.faiss_index_bin dir
         end;
       OKR.mappings_json :=
         Some (OKR.index_to_chunk_id (base self), OKR.chunk_id_to_index (base self));
       OKR.chunks_db :=
         Some (foldl insert_or_replace (default [] (OKR.chunks_db dir))
                     (row_of <$> chunk_metadata self));
       OKR.config_json :=
         Some {| OKR.total_chunks := length (chunk_metadata self);
                 OKR.index_size := size (OKR.index_to_chunk_id (base self)) |} |} in
  (<[index_path' := dir']> fs,
   {| base := {| OKR.embedder := OKR.embedder (base self);
                 OKR.faiss_index := OKR.faiss_index (base self);
                 OKR.index_to_chunk_id := OKR.index_to_chunk_id (base self);
                 OKR.chunk_id_to_index := OKR.chunk_id_to_index (base self);
                 OKR.index_path := index_path' |};
      chunk_metadata := chunk_metadata self |},
   index_path').

(** [export_retriever_offline] *)
Definition export_retriever_offline (export_fault : option exn)
    (fs : gmap string OKR.index_dir) (online_retriever : retriever)
    (save_path : string) : outcome (gmap string OKR.index_dir * string) :=
  offline_retriever ← load_from_online_retriever export_fault (new None) online_retriever;
  let '(fs', _, path) := save_offline fs offline_retriever (Some save_path) in
  mret (fs', path).

(** [load_retriever_offline] *)
Definition load_retriever_offline (fs : gmap string OKR.index_dir)
    (index_path : string) : outcome OKR.offline_retriever :=
  loaded ← OKR.load_offline fs (OKR.init None) (Some index_path);
  mret (loaded.1).

(** The dictionary returned by [get_stats]. *)
Record stats := {
  st_total_chunks : nat;
  st_unique_sources : nat;
  st_type_distribution : list (option string * nat);
  st_index_size : nat;
  st_index_path : string }.

(** [SELECT source_type, COUNT( * ) FROM chunks GROUP BY source_type] *)
Definition group_counts (table : list OKR.db_row) : list (option string * nat) :=
  (fun ty => (ty, length (filter (fun row => OKR.col_source_type row = ty) table)))
    <$> remove_dups (OKR.col_source_type <$> table).

(** [SELECT COUNT(DISTINCT source_url) FROM chunks]; nulls are not
    counted. *)
Definition count_distinct_urls (table : list OKR.db_row) : nat :=
  length (remove_dups (omap OKR.col_source_url table)).

Definition get_stats (fs : gmap string OKR.index_dir) (self : OKR.offline_retriever)
  : outcome stats :=
  match fs !! OKR.index_path self with
  | None => Raise OperationalError
  | Some dir =>
      match OKR.chunks_db dir with
      | None => Raise OperationalError
      | Some table =>
          Ret {| st_total_chunks := length table;
                 st_unique_sources := count_distinct_urls table;
                 st_type_distribution := group_counts table;
                 st_index_size :=
                   match OKR.faiss_index self with
                   | Some ix => length ix
                   | None => 0
                   end;
                 st_index_path := OKR.index_path self |}
      end
  end.

End WithBackend.

End OfflineExport.

(** ** Further examples *)

Module MoreExamples.
Import Examples.

(** The retriever after indexing [cycle]: two chunks, one split each. *)
Definition small : retriever (H := backend) :=
  match build_vector_index (init (healthy cycle)) with
  | Ret r => r
  | Raise _ => init (healthy cycle)
  end.

End MoreExamples.
(** ** Vocabulary of the statements *)

(** [precedes l a b]: some occurrence of [a] in [l] comes before some
    occurrence of [b]. *)
Inductive precedes {A} : list A -> A -> A -> Prop :=
  | precedes_here a b l : b ∈ l -> precedes (a :: l) a b
  | precedes_later x a b l : precedes l a b -> precedes (x :: l) a b.


(** Descending order of keys. *)
Definition desc {A} (key : A -> Q) (a b : A) : Prop := (key b <= key a)%Q.

(** The sum of [score * w] over the entries of [l] that carry [id]. *)
Definition weighted_sum (id : option string) (w : Q) (l : list RetrievedChunk) : Q :=
  foldr Qplus 0%Q ((fun c => (score c * w)%Q) <$> filter (fun c => chunk_id c = id) l).

(** The keys of a dictionary in insertion order, when [ids] are assigned one
    after the other. *)
Definition note (seen : list (option string)) (k : option string) :=
  if decide (k ∈ seen) then seen else seen ++ [k].

Definition first_seen (ids : list (option string)) : list (option string) :=
  foldl note [] ids.

(** [d.get(k, 0)] on an association list. *)
Fixpoint score_of (k : option string) (d : list (option string * Q)) : Q :=
  match d with
  | [] => 0%Q
  | (k', v) :: rest => if decide (k' = k) then v else score_of k rest
  end.

(** The ids of the chunks in the store. *)
Definition stored_ids (g : graph) : list string := (fun c => c.1.1) <$> all_chunks g.

(** What the two loops of the fusion step leave in [all_chunks]: every
    scored key has a chunk, and a chunk is filed under its own [chunk_id]. *)
Definition filed (st : fusion_state) : Prop :=
  (forall k ch, st.2 !! k = Some ch -> chunk_id ch = k) /\
  (forall k, k ∈ st.1.*1 -> is_Some (st.2 !! k)).

Definition id_and_score (c : RetrievedChunk) : option string * Q :=
  (chunk_id c, score c).

Module Off := OfflineKnowledgeRetriever.

(** What one label of the nearest-neighbour row contributes to the offline
    search: a result when the label is mapped to a chunk id that has a row,
    nothing otherwise. *)
Definition reported `{VectorBackend} (self : Off.offline_retriever)
    (table : list Off.db_row) (h : Q * Z) : option Off.hit :=
  cid ← Off.index_to_chunk_id self !! h.2;
  row ← head (filter (fun row => Off.col_chunk_id row = cid) table);
  Some (Off.hit_of_row row (h.1)).

(** *** The sentences of the specification, word for word *)

(** Fusion score: one product per side, their sum when both sides have the
    chunk. *)
Definition fused_score_as_stated : Prop :=
  forall sem gr sw gw top_k out c,
    fuse sem gr sw gw top_k = Ret out -> c ∈ out ->
    (forall s, s ∈ sem -> chunk_id s = chunk_id c ->
               (forall g, g ∈ gr -> chunk_id g <> chunk_id c) ->
               (score c == sw * score s)%Q) /\
    (forall g, g ∈ gr -> chunk_id g = chunk_id c ->
               (forall s, s ∈ sem -> chunk_id s <> chunk_id c) ->
               (score c == gw * score g)%Q) /\
    (forall s g, s ∈ sem -> g ∈ gr ->
                 chunk_id s = chunk_id c -> chunk_id g = chunk_id c ->
                 (score c == sw * score s + gw * score g)%Q).

(** Semantic search hands off each chunk at most once. *)
Definition deduplicated_as_stated : Prop :=
  forall (B : VectorBackend) (r : retriever) query top_k out,
    semantic_search r query top_k = Ret out -> NoDup (chunk_id <$> out).

(** Order of chunk ids, [None] first. *)
Definition id_le (a b : option string) : bool :=
  match a, b with
  | Some x, Some y => String.leb x y
  | None, _ => true
  | Some _, None => false
  end.

Definition by_score_then_id (le : option string -> option string -> bool)
    (a b : RetrievedChunk) : Prop :=
  (score b < score a)%Q \/ ((score a == score b)%Q /\ le (chunk_id a) (chunk_id b) = true).

(** Fused output: score descending, ties by chunk id (in one direction or
    the other), at most [top_k] entries. *)
Definition ranking_as_stated : Prop :=
  forall sem gr sw gw top_k out,
    fuse sem gr sw gw top_k = Ret out ->
    (length out <= top_k)%nat /\
    (Sorted (by_score_then_id id_le) out \/
     Sorted (by_score_then_id (fun a b => id_le b a)) out).

(** Seeded walk: the seed's own matching chunks are reported at depth 0 with
    score 1, and all results of one source carry one score (its shallowest
    depth). *)
Definition seeded_walk_as_stated : Prop :=
  forall (B : VectorBackend) (r : retriever) query seeds max_depth out,
    graph_walk_search r query (Some seeds) max_depth = Ret out ->
    let g := store (driver r) in
    let term := main_term query in
    (forall url start en id t m,
        url ∈ seeds -> start ∈ pages_with_url g url ->
        nodes g !! start = Some en -> (id, t, m) ∈ chunks_of g start ->
        holds (or3 (contains3 t term) (contains3 (node_title en) term)) = true ->
        exists c, c ∈ out /\ chunk_id c = Some id /\ source_url c = Some url /\
                  (score c == 1)%Q) /\
    (forall c c', c ∈ out -> c' ∈ out -> source_url c = source_url c' ->
                  (score c == score c')%Q).

(** Index build: a corpus without a usable split makes the build fail. *)
Definition empty_corpus_as_stated : Prop :=
  forall (B : VectorBackend) (r : retriever),
    fault (driver r) QAllChunks = None ->
    collect_splits (all_chunks (store (driver r))) = [] ->
    raises (build_vector_index r).

(** Load: an index file and a mapping file of different sizes are
    rejected. *)
Definition count_check_as_stated : Prop :=
  forall (B : VectorBackend) (fs : gmap string OfflineKnowledgeRetriever.index_dir)
         (self : OfflineKnowledgeRetriever.offline_retriever) path dir ix maps,
    fs !! default (OfflineKnowledgeRetriever.index_path self) (py_or path None) = Some dir ->
    OfflineKnowledgeRetriever.faiss_index_bin dir = Some ix ->
    OfflineKnowledgeRetriever.mappings_json dir = Some maps ->
    length ix <> size (maps.1) ->
    raises (OfflineKnowledgeRetriever.load_offline fs self path).

(** Enrichment: whenever semantic search answers, the multimodal search
    answers too, with the same chunks and scores in the same order. *)
Definition enrichment_as_stated : Prop :=
  forall (B : VectorBackend) (r : retriever) query include_assets top_k sem,
    semantic_search r query top_k = Ret sem ->
    exists out,
      multimodal_search r query include_assets top_k = Ret out /\
      (fun c => (chunk_id c, score c)) <$> out = (fun c => (chunk_id c, score c)) <$> sem.

(** ** Vocabulary for the rest of the code *)

(** The two dictionaries that [build_vector_index] fills from the list
    [split_to_chunk_mapping]. *)
Definition numbered (mapping : list string) : list (Z * string) :=
  imap (fun i c => (Z.of_nat i, c)) mapping.

Definition index_map_of (mapping : list string) : gmap Z string :=
  foldl (fun m '(idx, c) => <[idx := c]> m) ∅ (numbered mapping).

Definition chunk_map_of (mapping : list string) : gmap string (list Z) :=
  foldl (fun m '(idx, c) => <[c := default [] (m !! c) ++ [idx]]> m) ∅
        (numbered mapping).

(** The retriever that a successful build leaves. *)
Definition built `{VectorBackend} (r : retriever) : retriever :=
  let splits := collect_splits (all_chunks (store (driver r))) in
  {| driver := driver r;
     faiss_index := Some (encode <$> splits.*1);
     chunk_id_to_index := chunk_map_of (splits.*2);
     index_to_chunk_id := index_map_of (splits.*2) |}.

(** Relationships used so far on a path: no repetition, all in the store. *)
Definition used_rels (g : graph) (rs : list nat) : Prop :=
  NoDup rs /\ forall i, i ∈ rs -> (i < length (rels g))%nat.

(** The context path that the fusion step leaves on a chunk [base] after
    the graph results [grk] with the same id have been merged into it: its
    own path if that is non-empty, else the first non-empty path among
    [grk], else its own. *)
Definition merged_path (base : RetrievedChunk) (grk : list RetrievedChunk)
  : option (list (option string)) :=
  if nonempty (context_path base) then context_path base
  else match head (filter (fun x => nonempty (context_path x) = true) grk) with
       | Some x => context_path x
       | None => context_path base
       end.

(** The effect of the graph results [grk] carrying one id on the slot of
    that id in [all_chunks]. *)
Fixpoint settle (slot : option RetrievedChunk) (grk : list RetrievedChunk)
  : option RetrievedChunk :=
  match grk with
  | [] => slot
  | x :: rest =>
      match slot with
      | None => settle (Some x) rest
      | Some old =>
          settle (Some (if nonempty (context_path x) && negb (nonempty (context_path old))
                        then set_context_path old (context_path x) else old))
                 rest
      end
  end.
(** * Properties *)

(** ** The error monad *)

Lemma bind_Ret_inv {A B} (m : outcome A) (f : A -> outcome B) (b : B) :
  m ≫= f = Ret b -> exists a, m = Ret a /\ f a = Ret b.
Proof. destruct m as [a|e]; simpl; [eauto | discriminate]. Qed.

Lemma mapM_Ret_inv {A B} (f : A -> outcome B) (l : list A) (out : list B) :
  mapM f l = Ret out -> Forall2 (fun x y => f x = Ret y) l out.
Proof.
  revert out. induction l as [|x l IH]; intros out Hm; simpl in Hm.
  - injection Hm as <-. constructor.
  - apply bind_Ret_inv in Hm as (y & Hy & Hm).
    apply bind_Ret_inv in Hm as (k & Hk & Hm).
    injection Hm as <-. constructor; auto.
Qed.

Lemma mapM_total {A B} (f : A -> outcome B) (l : list A) :
  (forall x, x ∈ l -> returns (f x)) -> returns (mapM f l).
Proof.
  induction l as [|x l IH]; intros Hall; simpl.
  - eexists; reflexivity.
  - destruct (Hall x) as [y Hy]; [left|].
    destruct IH as [k Hk]; [intros z Hz; apply Hall; right; exact Hz|].
    exists (y :: k). rewrite Hy. simpl. rewrite Hk. reflexivity.
Qed.

(** The first failing element decides the exception. *)
Lemma mapM_raises {A B} (f : A -> outcome B) (l : list A) (e : exn) (x : A) :
  x ∈ l -> f x = Raise e ->
  (forall y, y ∈ l -> f y = Raise e \/ returns (f y)) ->
  mapM f l = Raise e.
Proof.
  induction l as [|z l IH]; intros Hin Hx Hall.
  - inversion Hin.
  - simpl. destruct (Hall z) as [Hz|[b Hz]]; [left| |]; rewrite Hz; simpl;
      [reflexivity|].
    assert (Hl : mapM f l = Raise e).
    { apply IH.
      - inversion Hin; subst; [congruence | assumption].
      - exact Hx.
      - intros y Hy. apply Hall. right. exact Hy. }
    rewrite Hl. reflexivity.
Qed.

(** ** Order of occurrence, and the stable descending sort *)

Lemma precedes_fmap {A B} (f : A -> B) (l : list A) a b :
  precedes l a b -> precedes (f <$> l) (f a) (f b).
Proof.
  induction 1 as [a b l Hb|x a b l _ IH]; simpl.
  - apply precedes_here. apply list_elem_of_fmap. eauto.
  - apply precedes_later. exact IH.
Qed.

Lemma precedes_take {A} (k : nat) (l : list A) a b :
  precedes (take k l) a b -> precedes l a b.
Proof.
  revert l. induction k as [|k IH]; intros [|x l] Hp; simpl in Hp;
    try (inversion Hp; fail).
  inversion Hp; subst.
  - apply precedes_here.
    match goal with Hb : _ ∈ take _ _ |- _ =>
      apply elem_of_take in Hb as (i & Hi & _) end.
    apply list_elem_of_lookup. eauto.
  - apply precedes_later. auto.
Qed.

Lemma precedes_lookup {A} (l : list A) a b :
  precedes l a b <->
  exists i j, (i < j)%nat /\ l !! i = Some a /\ l !! j = Some b.
Proof.
  split.
  - induction 1 as [a b l Hb|x a b l _ (i & j & Hij & Hi & Hj)].
    + apply list_elem_of_lookup in Hb as [j Hj].
      exists 0%nat, (S j). split; [lia|]. split; [reflexivity | exact Hj].
    + exists (S i), (S j). split; [lia|]. split; assumption.
  - intros (i & j & Hij & Hi & Hj). revert i j Hij Hi Hj.
    induction l as [|x l IH]; intros i j Hij Hi Hj; [discriminate|].
    destruct j as [|j]; [lia|]. simpl in Hj.
    destruct i as [|i]; simpl in Hi.
    + injection Hi as ->. apply precedes_here.
      apply list_elem_of_lookup. eauto.
    + apply precedes_later. apply (IH i j); [lia | assumption..].
Qed.

Section SortedDesc.
Context {A : Type} (key : A -> Q).

Lemma ins_perm (x : A) (l : list A) : ins key x l ≡ₚ x :: l.
Proof.
  induction l as [|y l IH]; simpl; [reflexivity|].
  destruct (Qle_bool (key y) (key x)); [reflexivity|].
  rewrite IH. apply Permutation_swap.
Qed.

Lemma sorted_desc_perm (l : list A) : sorted_desc key l ≡ₚ l.
Proof.
  induction l as [|x l IH]; simpl; [reflexivity|].
  rewrite ins_perm, IH. reflexivity.
Qed.

Lemma ins_sorted (x : A) (l : list A) :
  StronglySorted (desc key) l -> StronglySorted (desc key) (ins key x l).
Proof.
  induction 1 as [|y l Hl IH Hy]; simpl.
  - repeat constructor.
  - destruct (Qle_bool (key y) (key x)) eqn:Hle.
    + apply Qle_bool_iff in Hle. constructor; [constructor; assumption|].
      constructor; [exact Hle|].
      eapply Forall_impl; [exact Hy|]. intros z Hz. unfold desc in *.
      eapply Qle_trans; eassumption.
    + assert (Hlt : (key x < key y)%Q).
      { apply Qnot_le_lt. intros Hc. apply Qle_bool_iff in Hc. congruence. }
      constructor; [exact IH|].
      rewrite ins_perm. constructor; [|exact Hy].
      unfold desc. apply Qlt_le_weak. exact Hlt.
Qed.

Lemma sorted_desc_sorted (l : list A) : StronglySorted (desc key) (sorted_desc key l).
Proof.
  induction l as [|x l IH]; simpl; [constructor|]. apply ins_sorted, IH.
Qed.

(** Where [ins] puts the new element: in front of everything that was
    there, except elements with a strictly larger key. *)
Lemma ins_precedes (x : A) (l : list A) a b :
  precedes (ins key x l) a b ->
  precedes l a b \/ (a = x /\ b ∈ l) \/ (b = x /\ a ∈ l /\ (key x < key a)%Q).
Proof.
  induction l as [|y l IH]; simpl; intros Hp.
  - inversion Hp as [? ? ? Hb|? ? ? ? Hq]; subst; [inversion Hb | inversion Hq].
  - destruct (Qle_bool (key y) (key x)) eqn:Hle.
    + inversion Hp; subst; auto.
    + assert (Hlt : (key x < key y)%Q).
      { apply Qnot_le_lt. intros Hc. apply Qle_bool_iff in Hc. congruence. }
      inversion Hp as [? ? ? Hb|? ? ? ? Hq]; subst.
      * rewrite ins_perm in Hb. apply elem_of_cons in Hb as [->|Hb].
        -- right; right. split; [reflexivity|]. split; [left | exact Hlt].
        -- left. apply precedes_here. exact Hb.
      * destruct (IH Hq) as [Hr|[[-> Hb]|(-> & Ha & Hk)]].
        -- left. apply precedes_later. exact Hr.
        -- right; left. split; [reflexivity | right; exact Hb].
        -- right; right. split; [reflexivity|]. split; [right; exact Ha | exact Hk].
Qed.

(** Stability: elements with equal keys leave in the order they came. *)
Lemma sorted_desc_stable (l : list A) a b :
  precedes (sorted_desc key l) a b -> (key a == key b)%Q -> precedes l a b.
Proof.
  induction l as [|x l IH]; simpl; intros Hp Heq.
  - inversion Hp.
  - destruct (ins_precedes _ _ _ _ Hp) as [Hr|[[-> Hb]|(-> & _ & Hk)]].
    + apply precedes_later. auto.
    + apply precedes_here. rewrite <- sorted_desc_perm. exact Hb.
    + exfalso. rewrite Heq in Hk. exact (Qlt_irrefl _ Hk).
Qed.
End SortedDesc.

(** ** The fusion step *)

Section Fusion.
Implicit Types (d : list (option string * Q)) (k : option string).
Implicit Types (st : fusion_state) (c : RetrievedChunk).

Lemma add_score_keys k x d : (add_score k x d).*1 = note (d.*1) k.
Proof.
  unfold note. induction d as [|[k' v] d IH].
  - reflexivity.
  - cbn [add_score]. destruct (decide (k' = k)) as [->|Hne].
    + rewrite decide_True; [reflexivity | left].
    + rewrite fmap_cons, IH. cbn [fst fmap list_fmap].
      destruct (decide (k ∈ d.*1)) as [Hin|Hnin].
      * rewrite decide_True; [reflexivity | right; exact Hin].
      * rewrite decide_False; [reflexivity|].
        intros Hc. apply elem_of_cons in Hc as [->|Hc]; contradiction.
Qed.

Lemma score_of_add_score_eq k x d :
  score_of k (add_score k x d) = (score_of k d + x)%Q.
Proof.
  induction d as [|[k' v] d IH]; simpl.
  - rewrite decide_True; reflexivity.
  - destruct (decide (k' = k)) as [->|Hne]; simpl.
    + rewrite decide_True; reflexivity.
    + rewrite decide_False by exact Hne. exact IH.
Qed.

Lemma score_of_add_score_ne k k' x d :
  k' <> k -> score_of k' (add_score k x d) = score_of k' d.
Proof.
  intros Hne. induction d as [|[k0 v] d IH]; simpl.
  - rewrite decide_False; [reflexivity | congruence].
  - destruct (decide (k0 = k)) as [->|Hne0]; simpl.
    + rewrite !decide_False by congruence. reflexivity.
    + rewrite IH. reflexivity.
Qed.

Lemma score_of_elem k v d : NoDup (d.*1) -> (k, v) ∈ d -> score_of k d = v.
Proof.
  induction d as [|[k' v'] d IH]; simpl; intros Hnd Hin.
  - inversion Hin.
  - apply NoDup_cons in Hnd as [Hk' Hnd].
    apply elem_of_cons in Hin as [Heq|Hin].
    + injection Heq as -> ->. rewrite decide_True; reflexivity.
    + rewrite decide_False; [auto|].
      intros ->. apply Hk'. apply list_elem_of_fmap. exists (k, v). auto.
Qed.

Lemma note_NoDup seen k : NoDup seen -> NoDup (note seen k).
Proof.
  intros Hnd. unfold note. destruct (decide (k ∈ seen)); [exact Hnd|].
  apply NoDup_app. split; [exact Hnd|]. split.
  - intros x Hx Hx'. apply list_elem_of_singleton in Hx'. subst. contradiction.
  - apply NoDup_singleton.
Qed.

Lemma foldl_note_NoDup seen ids : NoDup seen -> NoDup (foldl note seen ids).
Proof.
  revert seen. induction ids as [|k ids IH]; intros seen Hnd; simpl;
    [exact Hnd|]. apply IH, note_NoDup, Hnd.
Qed.

(** What the two loops leave in [combined_scores]: keys. *)
Lemma foldl_add_semantic_keys w st l :
  (foldl (add_semantic w) st l).1.*1 = foldl note (st.1.*1) (chunk_id <$> l).
Proof.
  revert st. induction l as [|c l IH]; intros st; simpl; [reflexivity|].
  rewrite IH. simpl. rewrite add_score_keys. reflexivity.
Qed.

Lemma foldl_add_graph_keys w st l :
  (foldl (add_graph w) st l).1.*1 = foldl note (st.1.*1) (chunk_id <$> l).
Proof.
  revert st. induction l as [|c l IH]; intros st; simpl; [reflexivity|].
  rewrite IH. simpl. rewrite add_score_keys. reflexivity.
Qed.

Lemma accumulate_keys sem gr sw gw :
  (accumulate sem gr sw gw).1.*1 = first_seen (chunk_id <$> (sem ++ gr)).
Proof.
  unfold accumulate, first_seen.
  rewrite foldl_add_graph_keys, foldl_add_semantic_keys.
  rewrite fmap_app, foldl_app. reflexivity.
Qed.

Lemma accumulate_keys_NoDup sem gr sw gw : NoDup ((accumulate sem gr sw gw).1.*1).
Proof. rewrite accumulate_keys. apply foldl_note_NoDup, NoDup_nil_2. Qed.

(** What the two loops leave in [combined_scores]: values. *)
Lemma weighted_sum_cons id w c l :
  weighted_sum id w (c :: l) =
  if decide (chunk_id c = id) then (score c * w + weighted_sum id w l)%Q
  else weighted_sum id w l.
Proof.
  unfold weighted_sum. rewrite filter_cons.
  destruct (decide (chunk_id c = id)); reflexivity.
Qed.

Lemma foldl_add_semantic_score w st l k :
  (score_of k (foldl (add_semantic w) st l).1 ==
   score_of k (st.1) + weighted_sum k w l)%Q.
Proof.
  revert st. induction l as [|c l IH]; intros st; simpl.
  - unfold weighted_sum; simpl. ring.
  - rewrite IH, weighted_sum_cons. simpl.
    destruct (decide (chunk_id c = k)) as [<-|Hne].
    + rewrite score_of_add_score_eq. ring.
    + rewrite score_of_add_score_ne by congruence. reflexivity.
Qed.

Lemma foldl_add_graph_score w st l k :
  (score_of k (foldl (add_graph w) st l).1 ==
   score_of k (st.1) + weighted_sum k w l)%Q.
Proof.
  revert st. induction l as [|c l IH]; intros st; simpl.
  - unfold weighted_sum; simpl. ring.
  - rewrite IH, weighted_sum_cons. simpl.
    destruct (decide (chunk_id c = k)) as [<-|Hne].
    + rewrite score_of_add_score_eq. ring.
    + rewrite score_of_add_score_ne by congruence. reflexivity.
Qed.

Lemma accumulate_score sem gr sw gw k :
  (score_of k (accumulate sem gr sw gw).1 ==
   weighted_sum k sw sem + weighted_sum k gw gr)%Q.
Proof.
  unfold accumulate. rewrite foldl_add_graph_score, foldl_add_semantic_score.
  simpl. ring.
Qed.

Lemma add_semantic_filed w st c : filed st -> filed (add_semantic w st c).
Proof.
  intros [Hid Hdom]. split; simpl.
  - intros k ch Hk. apply lookup_insert_Some in Hk as [[<- <-]|[_ Hk]]; eauto.
  - intros k Hk. rewrite add_score_keys in Hk. unfold note in Hk.
    destruct (decide (k = chunk_id c)) as [->|Hne].
    + rewrite lookup_insert_eq. eauto.
    + rewrite lookup_insert_ne by congruence. apply Hdom.
      case_decide; [exact Hk|].
      apply elem_of_app in Hk as [Hk|Hk]; [exact Hk|].
      apply list_elem_of_singleton in Hk. contradiction.
Qed.

Lemma add_graph_filed w st c : filed st -> filed (add_graph w st c).
Proof.
  intros [Hid Hdom]. split; simpl.
  - intros k ch Hk. destruct (st.2 !! chunk_id c) as [old|] eqn:Hold.
    + destruct (nonempty (context_path c) && negb (nonempty (context_path old)));
        [|eauto].
      apply lookup_insert_Some in Hk as [[<- <-]|[_ Hk]]; [|eauto].
      simpl. eauto.
    + apply lookup_insert_Some in Hk as [[<- <-]|[_ Hk]]; eauto.
  - intros k Hk. rewrite add_score_keys in Hk. unfold note in Hk.
    assert (Hcase : k = chunk_id c \/ k ∈ st.1.*1).
    { case_decide; [right; exact Hk|].
      apply elem_of_app in Hk as [Hk|Hk]; [right; exact Hk|].
      apply list_elem_of_singleton in Hk. left. exact Hk. }
    destruct (st.2 !! chunk_id c) as [old|] eqn:Hold.
    + destruct (nonempty (context_path c) && negb (nonempty (context_path old))).
      * destruct (decide (k = chunk_id c)) as [->|Hne].
        -- rewrite lookup_insert_eq. eauto.
        -- rewrite lookup_insert_ne by congruence.
           destruct Hcase; [contradiction | auto].
      * destruct Hcase as [->|Hk']; [rewrite Hold; eauto | auto].
    + destruct (decide (k = chunk_id c)) as [->|Hne].
      * rewrite lookup_insert_eq. eauto.
      * rewrite lookup_insert_ne by congruence.
        destruct Hcase; [contradiction | auto].
Qed.

Lemma accumulate_filed sem gr sw gw : filed (accumulate sem gr sw gw).
Proof.
  unfold accumulate.
  assert (H0 : filed ([], ∅)).
  { split; simpl; [intros k ch Hk; rewrite lookup_empty in Hk; discriminate|].
    intros k Hk. inversion Hk. }
  assert (Hsem : forall l st, filed st -> filed (foldl (add_semantic sw) st l)).
  { induction l as [|c l IH]; intros st Hst; simpl; [exact Hst|].
    apply IH, add_semantic_filed, Hst. }
  assert (Hgr : forall l st, filed st -> filed (foldl (add_graph gw) st l)).
  { induction l as [|c l IH]; intros st Hst; simpl; [exact Hst|].
    apply IH, add_graph_filed, Hst. }
  apply Hgr, Hsem, H0.
Qed.

(** The returned chunks carry, in order, the keys and values of the
    sorted and truncated dictionary. *)
Lemma fuse_pairs sem gr sw gw top_k out :
  fuse sem gr sw gw top_k = Ret out ->
  id_and_score <$> out = take top_k (sorted_desc snd (accumulate sem gr sw gw).1).
Proof.
  unfold fuse. pose proof (accumulate_filed sem gr sw gw) as [Hid _].
  destruct (accumulate sem gr sw gw) as [scores chunks]. simpl in *.
  intros Hm. apply mapM_Ret_inv in Hm.
  generalize dependent (take top_k (sorted_desc snd scores)).
  intros l Hm.
  induction Hm as [|[k v] c l out Hc _ IH]; [reflexivity|].
  rewrite fmap_cons, IH. f_equal.
  destruct (chunks !! k) as [ch|] eqn:Hk; [|discriminate].
  injection Hc as <-. unfold id_and_score. simpl.
  rewrite (Hid _ _ Hk). reflexivity.
Qed.

Lemma fuse_returns sem gr sw gw top_k : returns (fuse sem gr sw gw top_k).
Proof.
  unfold fuse. pose proof (accumulate_filed sem gr sw gw) as [_ Hdom].
  destruct (accumulate sem gr sw gw) as [scores chunks]. simpl in *.
  apply mapM_total. intros [k v] Hin.
  assert (Hk : k ∈ scores.*1).
  { apply list_elem_of_fmap. exists (k, v). split; [reflexivity|].
    apply elem_of_take in Hin as (i & Hi & _).
    rewrite <- (sorted_desc_perm snd scores).
    apply list_elem_of_lookup. eauto. }
  destruct (Hdom k Hk) as [ch Hch]. rewrite Hch. eexists; reflexivity.
Qed.
End Fusion.

(** ** Fused scores, duplicates and ranking *)

Lemma weighted_sum_single id w l s :
  filter (fun c => chunk_id c = id) l = [s] -> (weighted_sum id w l == w * score s)%Q.
Proof. unfold weighted_sum. intros ->. simpl. ring. Qed.

Lemma weighted_sum_absent id w l :
  filter (fun c => chunk_id c = id) l = [] -> (weighted_sum id w l == 0)%Q.
Proof. unfold weighted_sum. intros ->. simpl. reflexivity. Qed.

Lemma fuse_elem sem gr sw gw top_k out c :
  fuse sem gr sw gw top_k = Ret out -> c ∈ out ->
  (chunk_id c, score c) ∈ (accumulate sem gr sw gw).1.
Proof.
  intros Hf Hc. apply fuse_pairs in Hf.
  assert (Hin : id_and_score c ∈ id_and_score <$> out).
  { apply list_elem_of_fmap. eauto. }
  rewrite Hf in Hin. apply elem_of_take in Hin as (i & Hi & _).
  rewrite <- (sorted_desc_perm snd). apply list_elem_of_lookup. eauto.
Qed.

(** C1, amended.  The fusion step returns, and the fused score of every
    returned chunk is the sum of [score * semantic_weight] over every
    semantic entry with its [chunk_id] plus the sum of
    [score * graph_weight] over every graph entry with its [chunk_id]; a side
    without the id adds 0.  When the id occurs exactly once on a side, that
    side adds the single product, which gives the three cases: semantic
    only, graph only, both. *)
Theorem fused_score_is_weighted_sum sem gr sw gw top_k :
  exists out,
    fuse sem gr sw gw top_k = Ret out /\
    forall c, c ∈ out ->
      let here := fun x => chunk_id x = chunk_id c in
      (score c == weighted_sum (chunk_id c) sw sem
                  + weighted_sum (chunk_id c) gw gr)%Q /\
      (forall s, filter here sem = [s] -> filter here gr = [] ->
                 (score c == sw * score s)%Q) /\
      (forall g, filter here sem = [] -> filter here gr = [g] ->
                 (score c == gw * score g)%Q) /\
      (forall s g, filter here sem = [s] -> filter here gr = [g] ->
                   (score c == sw * score s + gw * score g)%Q).
Proof.
  destruct (fuse_returns sem gr sw gw top_k) as [out Hf].
  exists out. split; [exact Hf|]. intros c Hc here.
  assert (Hsum : (score c == weighted_sum (chunk_id c) sw sem
                             + weighted_sum (chunk_id c) gw gr)%Q).
  { rewrite <- accumulate_score.
    rewrite (score_of_elem (chunk_id c) (score c)); [reflexivity| |].
    - apply accumulate_keys_NoDup.
    - eapply fuse_elem; eassumption. }
  split; [exact Hsum|]. repeat split.
  - intros s Hs Hg. rewrite Hsum.
    rewrite (weighted_sum_single _ _ _ _ Hs), (weighted_sum_absent _ _ _ Hg). ring.
  - intros g Hs Hg. rewrite Hsum.
    rewrite (weighted_sum_absent _ _ _ Hs), (weighted_sum_single _ _ _ _ Hg). ring.
  - intros s g Hs Hg. rewrite Hsum.
    rewrite (weighted_sum_single _ _ _ _ Hs), (weighted_sum_single _ _ _ _ Hg).
    reflexivity.
Qed.

Lemma fuse_NoDup sem gr sw gw top_k out :
  fuse sem gr sw gw top_k = Ret out -> NoDup (chunk_id <$> out).
Proof.
  intros Hf. apply fuse_pairs in Hf.
  assert (Hids : chunk_id <$> out = (id_and_score <$> out).*1).
  { rewrite <- list_fmap_compose. reflexivity. }
  rewrite Hids, Hf.
  eapply sublist_NoDup; [|apply fmap_sublist, sublist_take].
  rewrite (sorted_desc_perm snd). apply accumulate_keys_NoDup.
Qed.

Lemma StronglySorted_fmap_inv {A B} (f : A -> B) (R : relation B) (l : list A) :
  StronglySorted R (f <$> l) -> StronglySorted (fun x y => R (f x) (f y)) l.
Proof.
  induction l as [|x l IH]; intros Hs; [constructor|].
  rewrite fmap_cons in Hs.
  apply StronglySorted_inv in Hs as [Hs Hx]. constructor; [auto|].
  rewrite Forall_fmap in Hx. exact Hx.
Qed.

Lemma StronglySorted_take {A} (R : relation A) (k : nat) (l : list A) :
  StronglySorted R l -> StronglySorted R (take k l).
Proof.
  intros Hs. revert k. induction Hs as [|x l Hl IH Hx]; intros [|k]; simpl;
    try constructor; [apply IH|].
  eapply Forall_forall. intros y Hy. eapply Forall_forall in Hx; [exact Hx|].
  apply elem_of_take in Hy as (i & Hi & _). apply list_elem_of_lookup. eauto.
Qed.

(** C5, amended.  The fusion step returns a list of at most [top_k]
    entries whose scores never increase along the list.  Entries with equal
    scores stand in the order in which their [chunk_id]s first entered the
    score dictionary: the semantic results in their order, then the graph
    results not seen before.  The [chunk_id]s themselves are not
    compared. *)
Theorem fused_ranking sem gr sw gw top_k :
  exists out,
    fuse sem gr sw gw top_k = Ret out /\
    (length out <= top_k)%nat /\
    StronglySorted (desc score) out /\
    (forall a b, precedes out a b -> (score a == score b)%Q ->
                 precedes (first_seen (chunk_id <$> (sem ++ gr)))
                          (chunk_id a) (chunk_id b)).
Proof.
  destruct (fuse_returns sem gr sw gw top_k) as [out Hret].
  exists out. split; [exact Hret|].
  pose proof (fuse_pairs _ _ _ _ _ _ Hret) as Hf. split; [|split].
  - rewrite <- (length_fmap id_and_score), Hf, length_take. lia.
  - apply (StronglySorted_fmap_inv id_and_score (desc snd)).
    rewrite Hf. apply StronglySorted_take, sorted_desc_sorted.
  - intros a b Hp Heq. rewrite <- accumulate_keys with (sw := sw) (gw := gw).
    apply (precedes_fmap fst _ (id_and_score a) (id_and_score b)).
    apply (sorted_desc_stable snd); [|exact Heq].
    eapply precedes_take. rewrite <- Hf. apply precedes_fmap. exact Hp.
Qed.

(** *** The fusion step on examples *)

Import Examples.

(** The scenario of the specification: X scores 0.9 semantically and 0.5 on
    the graph; with weights 0.7 and 0.3 the fused score is 0.78. *)
Example fuse_scenario :
  exists c, fuse [mk "X" (9#10)] [mk "X" (5#10)] (7#10) (3#10) 10 = Ret [c] /\
            (score c == 78 # 100)%Q.
Proof. eexists. split; [vm_compute; reflexivity | reflexivity]. Qed.

Lemma fused_score_is_weighted_sum_witness :
  let sem := [mk "X" (9#10)] in
  let gr := [mk "X" (5#10)] in
  exists out,
    fuse sem gr (7#10) (3#10) 10 = Ret out /\
    forall c, c ∈ out ->
      (score c == weighted_sum (chunk_id c) (7#10) sem
                  + weighted_sum (chunk_id c) (3#10) gr)%Q.
Proof.
  intros sem gr.
  destruct (fused_score_is_weighted_sum sem gr (7#10) (3#10) 10) as (out & Hf & Hall).
  exists out. split; [exact Hf|]. intros c Hc. exact (proj1 (Hall c Hc)).
Defined.

(** C1 as stated fails when a chunk id occurs twice among the semantic
    results (two splits of one chunk): X with scores 0.9 and 0.8 and no graph
    result fuses to 0.7 * 0.9 + 0.7 * 0.8 = 1.19, which is not
    0.7 * 0.9. *)
Lemma fused_score_duplicates_add_up : ~ fused_score_as_stated.
Proof.
  intros Hc.
  pose (sem := [mk "X" (9#10); mk "X" (8#10)]).
  pose (c := set_score (mk "X" (8#10)) (11900 # 10000)).
  assert (Hf : fuse sem [] (7#10) (3#10) 10 = Ret [c]) by (vm_compute; reflexivity).
  destruct (Hc sem [] (7#10)%Q (3#10)%Q 10%nat [c] c Hf) as [H1 _]; [left|].
  specialize (H1 (mk "X" (9#10))).
  assert (Habs : (score c == (7#10) * score (mk "X" (9#10)))%Q).
  { apply H1; [left | reflexivity | intros g Hg; inversion Hg]. }
  vm_compute in Habs. discriminate Habs.
Qed.

(** The same on the whole pipeline: three splits of [c1] answer the query,
    and [hybrid_search] adds up their three products and the graph
    product. *)
Example hybrid_search_adds_splits :
  exists c1 c2,
    hybrid_search (H := backend) indexed "cats" (7#10) (3#10) 2 = Ret [c1; c2] /\
    chunk_id c1 = Some "c1" /\
    (score c1 == (7#10) * 1 + (7#10) * 1 + (7#10) * 1 + (3#10) * 1)%Q.
Proof.
  eexists _, _. split; [vm_compute; reflexivity|]. split; reflexivity.
Qed.

Lemma fused_ranking_witness :
  exists out,
    fuse [] [mk "b" 1; mk "a" 1] (7#10) (3#10) 5 = Ret out /\
    (length out <= 5)%nat /\
    StronglySorted (desc score) out.
Proof.
  destruct (fused_ranking [] [mk "b" 1; mk "a" 1] (7#10) (3#10) 5)
    as (out & Hf & Hlen & Hsorted & _).
  exists out. auto.
Defined.

(** C5 as stated fails on ties: three graph results that all fuse to 0.3
    come out in their input order b, a, c, which is neither the ascending
    nor the descending order of the chunk ids. *)
Lemma fused_ties_keep_input_order : ~ ranking_as_stated.
Proof.
  intros Hc.
  pose (out := [set_score (mk "b" 1) (3#10); set_score (mk "a" 1) (3#10);
                set_score (mk "c" 1) (3#10)]).
  assert (Hf : fuse [] [mk "b" 1; mk "a" 1; mk "c" 1] (7#10) (3#10) 10 = Ret out)
    by (vm_compute; reflexivity).
  destruct (Hc _ _ _ _ _ _ Hf) as [_ [Hs|Hs]].
  - apply Sorted_inv in Hs as [_ Hhd]. inversion Hhd as [|? ? Hba]; subst.
    destruct Hba as [Hlt|[_ Hle]]; [vm_compute in Hlt | vm_compute in Hle];
      discriminate.
  - apply Sorted_inv in Hs as [Hs _]. apply Sorted_inv in Hs as [_ Hhd].
    inversion Hhd as [|? ? Hac]; subst.
    destruct Hac as [Hlt|[_ Hle]]; [vm_compute in Hlt | vm_compute in Hle];
      discriminate.
Qed.

(** ** Paths of the seeded walk *)

Section Walk.
Variable g : graph.

Lemma steps_spec used cur i n :
  (i, n) ∈ steps g used cur <-> (i ∉ used) /\ hop g i cur n.
Proof.
  unfold steps, hop. rewrite list_elem_of_omap. split.
  - intros ([j r] & Hin & Hf).
    apply elem_of_lookup_imap in Hin as (j' & r' & Heq & Hr).
    injection Heq as -> ->.
    destruct (walkable (r_type r')) eqn:Hw; simpl in Hf; [|discriminate].
    destruct (bool_decide (j' ∉ used)) eqn:Hu; simpl in Hf; [|discriminate].
    apply bool_decide_eq_true in Hu.
    destruct (other_end r' cur) as [n'|] eqn:Ho; simpl in Hf; [|discriminate].
    injection Hf as <- <-. split; [exact Hu|]. exists r'. auto.
  - intros (Hu & r & Hr & Hw & Ho). exists (i, r). split.
    + apply (elem_of_lookup_imap_2 (fun i r => (i, r))). exact Hr.
    + rewrite Hw. rewrite bool_decide_eq_true_2 by exact Hu. simpl.
      rewrite Ho. reflexivity.
Qed.

Lemma Trail_last s ns rs e : Trail g s ns rs e -> last ns = Some e.
Proof. destruct 1; [reflexivity | apply last_snoc]. Qed.

Lemma Trail_no_hops s ns rs e :
  Trail g s ns rs e -> rs = [] -> ns = [s] /\ e = s.
Proof. destruct 1 as [|? rs' ? ? ? _ _ _]; intros Heq; [auto | destruct rs'; discriminate]. Qed.

(** Every enumerated path is a trail and respects the hop budget. *)
Lemma trails_sound s d ns rs cur p :
  Trail g s ns rs cur -> p ∈ trails g d ns rs cur ->
  exists e, Trail g s p.1 p.2 e /\
            (length rs < length p.2 <= length rs + d)%nat.
Proof.
  revert ns rs cur. induction d as [|d IH]; intros ns rs cur Ht Hp; simpl in Hp.
  - inversion Hp.
  - apply list_elem_of_bind in Hp as ([i nxt] & Hp & Hstep).
    apply steps_spec in Hstep as [Hu Hh].
    pose proof (Trail_snoc g s ns rs cur i nxt Ht Hu Hh) as Ht'.
    apply elem_of_cons in Hp as [->|Hp].
    + exists nxt. split; [exact Ht'|]. simpl. rewrite length_app. simpl. lia.
    + destruct (IH _ _ _ Ht' Hp) as (e & He & Hlen). exists e.
      split; [exact He|]. rewrite length_app in Hlen. simpl in Hlen. lia.
Qed.

(** An enumerated path that has budget left is enumerated with each of
    its one-hop extensions. *)
Lemma trails_extend d ns0 rs0 cur0 ns rs m i n :
  (ns, rs) ∈ trails g d ns0 rs0 cur0 -> last ns = Some m ->
  (length rs < length rs0 + d)%nat -> (i, n) ∈ steps g rs m ->
  (ns ++ [n], rs ++ [i]) ∈ trails g d ns0 rs0 cur0.
Proof.
  revert ns0 rs0 cur0. induction d as [|d IH]; intros ns0 rs0 cur0 Hp Hl Hlen Hs;
    simpl in Hp; [inversion Hp|].
  apply list_elem_of_bind in Hp as ([i0 n0] & Hp & Hs0).
  simpl. apply list_elem_of_bind. exists (i0, n0). split; [|exact Hs0].
  apply elem_of_cons in Hp as [Heq|Hp].
  - injection Heq as -> ->. right.
    rewrite last_snoc in Hl. injection Hl as <-.
    rewrite length_app in Hlen. simpl in Hlen.
    destruct d as [|d]; [lia|]. simpl.
    apply list_elem_of_bind. exists (i, n). split; [left | exact Hs].
  - right. apply IH; [exact Hp | exact Hl | | exact Hs].
    rewrite length_app. simpl. lia.
Qed.

(** Every trail of 1 to [d] hops from [s] is enumerated. *)
Lemma trails_complete s d ns rs e :
  Trail g s ns rs e -> (1 <= length rs <= d)%nat ->
  (ns, rs) ∈ trails g d [s] [] s.
Proof.
  induction 1 as [|ns rs m i n Ht IH Hu Hh]; intros Hlen; simpl in Hlen; [lia|].
  rewrite length_app in Hlen. simpl in Hlen.
  assert (Hs : (i, n) ∈ steps g rs m) by (apply steps_spec; auto).
  destruct rs as [|r0 rs].
  - destruct (Trail_no_hops _ _ _ _ Ht eq_refl) as [-> ->].
    destruct d as [|d]; [lia|]. simpl.
    apply list_elem_of_bind. exists (i, n). split; [left | exact Hs].
  - apply (trails_extend d [s] [] s ns (r0 :: rs) m i n).
    + apply IH. simpl in *. lia.
    + eapply Trail_last, Ht.
    + simpl in *. lia.
    + exact Hs.
Qed.

Lemma insert_row_perm x l : insert_row x l ≡ₚ x :: l.
Proof.
  induction l as [|y l IH]; simpl; [reflexivity|].
  destruct (row_le x y); [reflexivity|]. rewrite IH. apply Permutation_swap.
Qed.

Lemma order_by_perm l : order_by l ≡ₚ l.
Proof.
  induction l as [|x l IH]; simpl; [reflexivity|].
  rewrite insert_row_perm, IH. reflexivity.
Qed.

(** [DISTINCT] and [ORDER BY] neither add nor drop a row. *)
Lemma elem_of_seeded_walk d seeds term row :
  row ∈ seeded_walk d seeds term g <->
  exists url start p,
    url ∈ seeds /\ start ∈ pages_with_url g url /\
    p ∈ trails g d [start] [] start /\ row ∈ rows_of_path g term p.
Proof.
  unfold seeded_walk. rewrite order_by_perm, elem_of_remove_dups.
  unfold seeded_rows. rewrite list_elem_of_bind. split.
  - intros (url & Hrow & Hurl).
    apply list_elem_of_bind in Hrow as (start & Hrow & Hstart).
    apply list_elem_of_bind in Hrow as (p & Hrow & Hp). eauto 10.
  - intros (url & start & p & Hurl & Hstart & Hp & Hrow).
    exists url. split; [|exact Hurl].
    apply list_elem_of_bind. exists start. split; [|exact Hstart].
    apply list_elem_of_bind. exists p. auto.
Qed.

Lemma rows_of_path_sound term p row :
  row ∈ rows_of_path g term p ->
  exists e en, last (p.1) = Some e /\ nodes g !! e = Some en /\
               is_source en = true /\
               w_depth row = length (p.2) /\
               w_source_url row = node_url en /\
               w_path_urls row = path_urls g (p.1).
Proof.
  unfold rows_of_path. destruct (last (p.1)) as [e|] eqn:Hl; [|inversion 1].
  destruct (nodes g !! e) as [en|] eqn:He; [|inversion 1].
  destruct (is_source en) eqn:Hsrc; [|inversion 1].
  intros Hrow. apply list_elem_of_fmap in Hrow as (c & -> & _).
  exists e, en. simpl. auto 10.
Qed.

Lemma rows_of_path_complete term p e en id t m :
  last (p.1) = Some e -> nodes g !! e = Some en -> is_source en = true ->
  (id, t, m) ∈ chunks_of g e ->
  holds (or3 (contains3 t term) (contains3 (node_title en) term)) = true ->
  {| w_chunk_id := Some id; w_text := t; w_modality := m;
     w_source_url := node_url en; w_source_title := node_title en;
     w_source_type := node_label en; w_depth := length (p.2);
     w_path_urls := path_urls g (p.1) |} ∈ rows_of_path g term p.
Proof.
  intros Hl He Hsrc Hc Hm. unfold rows_of_path. rewrite Hl, He, Hsrc.
  apply list_elem_of_fmap. exists (Some (id, t, m)). split; [reflexivity|].
  set (keep := filter _ (chunks_of g e)).
  assert (Hk : (id, t, m) ∈ keep).
  { apply list_elem_of_filter. split; [exact Hm | exact Hc]. }
  unfold optional. destruct keep as [|c0 keep']; [inversion Hk|].
  apply list_elem_of_fmap. eauto.
Qed.
End Walk.

(** ** The graph walk *)

Section GraphWalk.
Context `{VectorBackend}.
Implicit Types (r : retriever) (c : RetrievedChunk).

Lemma global_scan_depth term g row : row ∈ global_scan term g -> w_depth row = 0%nat.
Proof.
  unfold global_scan. intros Hrow.
  apply list_elem_of_bind in Hrow as ([ci n] & Hrow & _).
  destruct n as [| |id t m]; try (inversion Hrow; fail).
  destruct (holds (contains3 t term)); [|inversion Hrow].
  apply list_elem_of_bind in Hrow as (p & Hrow & _).
  apply list_elem_of_bind in Hrow as (a & Hrow & _).
  apply list_elem_of_singleton in Hrow. subst. reflexivity.
Qed.

(** Where a reported chunk of a seeded walk comes from. *)
Lemma seeded_result_origin r query seeds max_depth c :
  c ∈ chunk_of_row <$>
        seeded_walk max_depth seeds (main_term query) (store (driver r)) ->
  exists url start ns rs e,
    url ∈ seeds /\ start ∈ pages_with_url (store (driver r)) url /\
    Trail (store (driver r)) start ns rs e /\
    (1 <= length rs <= max_depth)%nat /\
    score c = (1 / inject_Z (Z.of_nat (length rs) + 1))%Q /\
    source_url c = nodes (store (driver r)) !! e ≫= node_url.
Proof.
  intros Hc. apply list_elem_of_fmap in Hc as (row & -> & Hrow).
  apply elem_of_seeded_walk in Hrow as (url & start & p & Hurl & Hstart & Hp & Hrow).
  destruct (trails_sound _ start _ _ _ _ p (Trail_nil _ start) Hp)
    as (e & Ht & Hlen).
  apply rows_of_path_sound in Hrow as (e' & en & Hl & He & _ & Hd & Hu & _).
  rewrite (Trail_last _ _ _ _ _ Ht) in Hl. injection Hl as <-.
  exists url, start, (p.1), (p.2), e. simpl in Hlen.
  repeat split; try assumption; try lia.
  - simpl. rewrite Hd. reflexivity.
  - simpl. rewrite Hu, He. reflexivity.
Qed.

(** C6.  With the store answering, [graph_walk_search] returns a list on
    every graph, seed list and [max_depth].  Every reported chunk comes
    with a depth of at most [max_depth] that fixes its score; in a seeded
    walk that depth is the number of hops of a path from a seed page to
    the chunk's source which goes over no relationship twice.  The
    enumeration [trails] recurses on the remaining hop budget only, so a
    cycle in the graph cannot prolong it. *)
Theorem graph_walk_returns_within_max_depth r query start_urls max_depth :
  fault (driver r) QSeededWalk = None ->
  fault (driver r) QGlobalScan = None ->
  exists out,
    graph_walk_search r query start_urls max_depth = Ret out /\
    forall c, c ∈ out ->
      exists depth,
        (depth <= max_depth)%nat /\
        score c = (1 / inject_Z (Z.of_nat depth + 1))%Q /\
        (nonempty start_urls = true ->
         exists url start ns rs e,
           url ∈ default [] start_urls /\
           start ∈ pages_with_url (store (driver r)) url /\
           Trail (store (driver r)) start ns rs e /\
           length rs = depth /\ (1 <= depth)%nat /\
           source_url c = nodes (store (driver r)) !! e ≫= node_url).
Proof.
  intros Hfs Hfg. unfold graph_walk_search, run.
  destruct (nonempty start_urls) eqn:Hne; [rewrite Hfs | rewrite Hfg]; simpl;
    eexists; (split; [reflexivity|]); intros c Hc.
  - apply seeded_result_origin in Hc
      as (url & start & ns & rs & e & Hurl & Hstart & Ht & Hlen & Hs & Hu).
    exists (length rs). split; [lia|]. split; [exact Hs|]. intros _.
    exists url, start, ns, rs, e. repeat split; try assumption; lia.
  - apply list_elem_of_fmap in Hc as (row & -> & Hrow).
    apply global_scan_depth in Hrow. exists 0%nat. split; [lia|].
    split; [simpl; rewrite Hrow; reflexivity | discriminate].
Qed.

(** C2, amended.  With the store answering, a seeded walk returns, and
    every reported chunk has score [1 / (depth + 1)] for a depth between 1
    and [max_depth], so nothing is reported at depth 0, the seed included.
    Every page or asset at the end of a path of 1 to [max_depth] hops from a
    seed page (relationships followed in either direction, none used twice)
    is collected: each chunk of it that matches is reported for that path,
    with the length of that path as its depth and the urls along it as its
    context path.  A source reached by paths of several lengths is therefore
    reported at each of these lengths. *)
Theorem seeded_walk_reports_every_path r query seeds max_depth :
  seeds <> [] ->
  fault (driver r) QSeededWalk = None ->
  let g := store (driver r) in
  let term := main_term query in
  exists out,
    graph_walk_search r query (Some seeds) max_depth = Ret out /\
    (forall c, c ∈ out ->
       exists depth, (1 <= depth <= max_depth)%nat /\
                     score c = (1 / inject_Z (Z.of_nat depth + 1))%Q) /\
    (forall url start ns rs e en id t m,
       url ∈ seeds -> start ∈ pages_with_url g url ->
       Trail g start ns rs e -> (1 <= length rs <= max_depth)%nat ->
       nodes g !! e = Some en -> is_source en = true ->
       (id, t, m) ∈ chunks_of g e ->
       holds (or3 (contains3 t term) (contains3 (node_title en) term)) = true ->
       exists c, c ∈ out /\ chunk_id c = Some id /\
                 score c = (1 / inject_Z (Z.of_nat (length rs) + 1))%Q /\
                 source_url c = node_url en /\
                 context_path c = Some (path_urls g ns)).
Proof.
  intros Hne Hfault g term.
  assert (Hret : graph_walk_search r query (Some seeds) max_depth =
                 Ret (chunk_of_row <$> seeded_walk max_depth seeds term g)).
  { unfold graph_walk_search, run. destruct seeds as [|u seeds]; [congruence|].
    simpl. rewrite Hfault. reflexivity. }
  eexists. split; [exact Hret|]. split.
  - intros c Hc. apply seeded_result_origin in Hc
      as (_ & _ & _ & rs & _ & _ & _ & _ & Hlen & Hs & _).
    exists (length rs). auto.
  - intros url start ns rs e en id t m Hurl Hstart Ht Hlen He Hsrc Hc Hm.
    eexists. split.
    + apply list_elem_of_fmap. eexists. split; [reflexivity|].
      apply elem_of_seeded_walk. exists url, start, (ns, rs).
      split; [exact Hurl|]. split; [exact Hstart|]. split.
      * eapply trails_complete; eassumption.
      * eapply rows_of_path_complete; try eassumption.
        simpl. eapply Trail_last, Ht.
    + simpl. auto.
Qed.
End GraphWalk.

(** *** The graph walk on examples *)

(** The cycle of the specification, seed PageA, [max_depth] 5: the walk
    returns; PageB is reported at depth 1 and PageA at depth 2. *)
Example cycle_walk :
  exists b a,
    graph_walk_search (H := backend) (init (healthy cycle)) "cats" (Some ["PageA"]) 5
      = Ret [b; a] /\
    (source_url b = Some "PageB" /\ score b = (1 / inject_Z (1 + 1))%Q) /\
    (source_url a = Some "PageA" /\ score a = (1 / inject_Z (2 + 1))%Q) /\
    context_path a = Some [Some "PageA"; Some "PageB"; Some "PageA"].
Proof. eexists _, _. split; [vm_compute; reflexivity|]. repeat split. Qed.

(** PageB is one hop and also two hops away from PageA, and its chunk is
    reported for both paths. *)
Example triangle_walk :
  exists out,
    graph_walk_search (H := backend) (init (healthy triangle)) "cats" (Some ["PageA"]) 2
      = Ret out /\
    score <$> filter (fun c => chunk_id c = Some "b1") out
      = [(1 / inject_Z (1 + 1))%Q; (1 / inject_Z (2 + 1))%Q].
Proof. eexists. split; [vm_compute; reflexivity | reflexivity]. Qed.

Lemma graph_walk_returns_within_max_depth_witness :
  exists out,
    graph_walk_search (H := backend) (init (healthy cycle)) "cats" (Some ["PageA"]) 5
      = Ret out /\
    forall c, c ∈ out ->
      exists depth,
        (depth <= 5)%nat /\
        score c = (1 / inject_Z (Z.of_nat depth + 1))%Q /\
        (nonempty (Some ["PageA"]) = true ->
         exists url start ns rs e,
           url ∈ default [] (Some ["PageA"]) /\
           start ∈ pages_with_url cycle url /\
           Trail cycle start ns rs e /\
           length rs = depth /\ (1 <= depth)%nat /\
           source_url c = nodes cycle !! e ≫= node_url).
Proof.
  apply (graph_walk_returns_within_max_depth (H := backend)
           (init (healthy cycle)) "cats" (Some ["PageA"]) 5); reflexivity.
Defined.

Lemma cycle_trail_back : Trail cycle 0 [0; 1; 0]%nat [0; 1]%nat 0.
Proof.
  apply (Trail_snoc cycle 0 [0; 1]%nat [0]%nat 1 1 0).
  - apply (Trail_snoc cycle 0 [0]%nat [] 0 0 1).
    + apply Trail_nil.
    + apply not_elem_of_nil.
    + eexists. split; [reflexivity|]. split; reflexivity.
  - intros Hin. apply list_elem_of_singleton in Hin. discriminate Hin.
  - eexists. split; [reflexivity|]. split; reflexivity.
Defined.

Lemma seeded_walk_reports_every_path_witness :
  exists out,
    graph_walk_search (H := backend) (init (healthy cycle)) "cats" (Some ["PageA"]) 5
      = Ret out /\
    exists c, c ∈ out /\ chunk_id c = Some "a1" /\
              score c = (1 / inject_Z (Z.of_nat 2 + 1))%Q /\
              source_url c = Some "PageA" /\
              context_path c = Some (path_urls cycle [0; 1; 0]%nat).
Proof.
  destruct (seeded_walk_reports_every_path (H := backend)
              (init (healthy cycle)) "cats" ["PageA"] 5)
    as (out & Hg & _ & Hall); [discriminate | reflexivity |].
  exists out. split; [exact Hg|].
  apply (Hall "PageA" 0%nat [0; 1; 0]%nat [0; 1]%nat 0%nat
              (PageNode "PageA" (Some "home"))
              "a1" (Some "cats at home") (Some "text")).
  - left.
  - vm_compute. left.
  - exact cycle_trail_back.
  - simpl. lia.
  - reflexivity.
  - reflexivity.
  - vm_compute. left.
  - vm_compute. reflexivity.
Defined.

(** C2 as stated fails on its own scenario: with seed PageA the chunk of
    PageA is not reported with score 1 (depth 0); it is reported once, at
    depth 2, after the walk has come back over the second link. *)
Lemma seed_is_not_reported_at_depth_zero : ~ seeded_walk_as_stated.
Proof.
  intros Hc.
  destruct (graph_walk_search (H := backend) (init (healthy cycle)) "cats"
              (Some ["PageA"]) 5) as [out|e] eqn:Hg;
    [|vm_compute in Hg; discriminate Hg].
  destruct (Hc backend (init (healthy cycle)) "cats" ["PageA"] 5%nat out Hg)
    as [Hseed _].
  destruct (Hseed "PageA" 0%nat (PageNode "PageA" (Some "home"))
                  "a1" (Some "cats at home") (Some "text"))
    as (c & Hin & Hid & _ & Hscore).
  - left.
  - vm_compute. left.
  - reflexivity.
  - vm_compute. left.
  - vm_compute. reflexivity.
  - vm_compute in Hg. injection Hg as <-.
    apply elem_of_cons in Hin as [->|Hin]; [discriminate Hid|].
    apply list_elem_of_singleton in Hin. subst c.
    vm_compute in Hscore. discriminate Hscore.
Qed.

(** ** The keyword of the graph walk *)

Lemma max_len_from_spec (best : string) (l : list string) :
  exists l1 l2,
    best :: l = l1 ++ max_len_from best l :: l2 /\
    (forall y, y ∈ l1 -> (String.length y < String.length (max_len_from best l))%nat) /\
    (forall y, y ∈ best :: l ->
               (String.length y <= String.length (max_len_from best l))%nat).
Proof.
  revert best. induction l as [|x l IH]; intros best; simpl.
  - exists [], []. split; [reflexivity|]. split.
    + intros y Hy. inversion Hy.
    + intros y Hy. apply list_elem_of_singleton in Hy. subst. lia.
  - destruct (String.length best <? String.length x)%nat eqn:Hlt.
    + apply Nat.ltb_lt in Hlt.
      destruct (IH x) as (l1 & l2 & Heq & Hbefore & Hall).
      exists (best :: l1), l2. split; [simpl; rewrite Heq; reflexivity|].
      assert (Hx : (String.length x <= String.length (max_len_from x l))%nat)
        by (apply Hall; left).
      split.
      * intros y Hy. apply elem_of_cons in Hy as [->|Hy]; [lia | auto].
      * intros y Hy. apply elem_of_cons in Hy as [->|Hy]; [lia | auto].
    + apply Nat.ltb_ge in Hlt.
      destruct (IH best) as (l1 & l2 & Heq & Hbefore & Hall).
      assert (Hb : (String.length best <= String.length (max_len_from best l))%nat)
        by (apply Hall; left).
      destruct l1 as [|b l1]; simpl in Heq; injection Heq as Hhd Htl.
      * exists [], (x :: l). split; [simpl; rewrite <- Hhd; reflexivity|].
        split; [intros y Hy; inversion Hy|].
        intros y Hy. apply elem_of_cons in Hy as [->|Hy]; [lia|].
        apply elem_of_cons in Hy as [->|Hy]; [lia|]. apply Hall. right. exact Hy.
      * subst b. exists (best :: x :: l1), l2.
        split; [simpl; do 2 f_equal; exact Htl|].
        assert (Hbl : (String.length best < String.length (max_len_from best l))%nat)
          by (apply Hbefore; left).
        split.
        -- intros y Hy. apply elem_of_cons in Hy as [->|Hy]; [lia|].
           apply elem_of_cons in Hy as [->|Hy]; [lia|]. apply Hbefore. right. exact Hy.
        -- intros y Hy. apply elem_of_cons in Hy as [->|Hy]; [lia|].
           apply elem_of_cons in Hy as [->|Hy]; [lia|]. apply Hall. right. exact Hy.
Qed.

(** The match term is the first longest word token of the lower-cased
    query; a query without word tokens is its own term. *)
Lemma main_term_longest_first (query : string) :
  let tokens := findall_words (lower query) in
  (tokens = [] -> main_term query = query) /\
  (tokens <> [] ->
   exists l1 l2,
     tokens = l1 ++ main_term query :: l2 /\
     (forall y, y ∈ l1 -> (String.length y < String.length (main_term query))%nat) /\
     (forall y, y ∈ tokens -> (String.length y <= String.length (main_term query))%nat)).
Proof.
  intros tokens. unfold main_term. fold tokens.
  destruct tokens as [|x l]; split; try congruence; intros _.
  - reflexivity.
  - simpl. apply max_len_from_spec.
Qed.

(** C4.  The query is lower-cased, the stored text and title are not, and
    Cypher's [CONTAINS] compares case.  For the query "Cats" the term is
    "cats"; the chunk "Cats are mammals" would match a case-insensitive
    comparison, but the global scan returns nothing and the seeded walk
    reports PageB with no chunk. *)
Theorem graph_walk_misses_capitalised_text :
  main_term "Cats" = "cats" /\
  contains (lower "Cats are mammals") "cats" = true /\
  contains "Cats are mammals" "cats" = false /\
  graph_walk_search (H := backend) (init (healthy capitalised)) "Cats" None 2 = Ret [] /\
  exists c,
    graph_walk_search (H := backend) (init (healthy capitalised)) "Cats"
      (Some ["PageA"]) 2 = Ret [c] /\
    source_url c = Some "PageB" /\ chunk_id c = None.
Proof.
  repeat split; try (vm_compute; reflexivity).
  eexists. split; [vm_compute; reflexivity|]. split; reflexivity.
Qed.

(** ** Index build *)

Section Build.
Context `{VectorBackend}.

(** Chunks without text, or with white space only, give no split. *)
Lemma collect_splits_blank (chunks : list (string * option string * option string)) :
  Forall (fun c => match c.1.2 with
                   | Some s => strip_nonempty s = false
                   | None => True
                   end) chunks ->
  collect_splits chunks = [].
Proof.
  induction 1 as [|[[cid t] m] chunks Hc _ IH]; [reflexivity|].
  unfold collect_splits in *. rewrite bind_cons, IH. simpl in Hc.
  destruct t as [s|]; [rewrite Hc|]; reflexivity.
Qed.

(** C7, amended.  When the store answers and no chunk yields a non-empty
    split, [build_vector_index] returns normally and leaves the retriever
    as it was; nothing is raised.  If the retriever had no index before,
    it has none after, and [semantic_search] then raises [ValueError]. *)
Theorem build_on_empty_corpus_returns (r : retriever) :
  fault (driver r) QAllChunks = None ->
  collect_splits (all_chunks (store (driver r))) = [] ->
  build_vector_index r = Ret r /\
  (faiss_index r = None ->
   forall query top_k,
     semantic_search r query top_k =
     Raise (ValueError "Vector index not built. Call build_vector_index() first.")).
Proof.
  intros Hf Hs. split.
  - unfold build_vector_index, run. rewrite Hf. simpl.
    destruct (all_chunks (store (driver r))) as [|c l]; [reflexivity|].
    rewrite Hs. reflexivity.
  - intros Hi query top_k. unfold semantic_search. rewrite Hi. reflexivity.
Qed.
End Build.

Lemma build_on_empty_corpus_returns_witness :
  build_vector_index (H := backend) (init (healthy blank_corpus))
    = Ret (init (healthy blank_corpus)) /\
  (faiss_index (init (H := backend) (healthy blank_corpus)) = None ->
   forall query top_k,
     semantic_search (H := backend) (init (healthy blank_corpus)) query top_k =
     Raise (ValueError "Vector index not built. Call build_vector_index() first.")).
Proof.
  apply (build_on_empty_corpus_returns (H := backend) (init (healthy blank_corpus)));
    reflexivity.
Defined.

(** C7 as stated fails: on the empty store the build returns. *)
Lemma build_on_empty_store_does_not_raise : ~ empty_corpus_as_stated.
Proof.
  intros Hc.
  destruct (Hc backend (init (healthy empty_store)) eq_refl eq_refl) as [e He].
  vm_compute in He. discriminate He.
Qed.

(** ** Loading the offline index *)

(** C8, amended.  [load_offline] compares no counts.  Whenever the
    directory exists and holds the mapping file and the config file, the
    load returns [True] and installs the mapping as stored, together with
    the stored index if there is one, whatever their sizes.  The only way
    the load fails is [FileNotFoundError], for a missing directory, mapping
    file or config file. *)
Theorem load_offline_accepts_any_counts `{VectorBackend}
    (fs : gmap string Off.index_dir) (self : Off.offline_retriever)
    (path : option string) :
  let index_path' := default (Off.index_path self) (py_or path None) in
  (forall dir maps cfg,
      fs !! index_path' = Some dir ->
      Off.mappings_json dir = Some maps ->
      Off.config_json dir = Some cfg ->
      Off.load_offline fs self path =
      Ret ({| Off.embedder := Some "all-MiniLM-L6-v2";
              Off.faiss_index := match Off.faiss_index_bin dir with
                                 | Some ix => Some ix
                                 | None => Off.faiss_index self
                                 end;
              Off.index_to_chunk_id := maps.1;
              Off.chunk_id_to_index := maps.2;
              Off.index_path := index_path' |}, true)) /\
  (forall e,
      Off.load_offline fs self path = Raise e ->
      e = FileNotFoundError /\
      (fs !! index_path' = None \/
       exists dir, fs !! index_path' = Some dir /\
                   (Off.mappings_json dir = None \/ Off.config_json dir = None))).
Proof.
  intros index_path'. split.
  - intros dir maps cfg Hdir Hmaps Hcfg. unfold Off.load_offline.
    fold index_path'. rewrite Hdir, Hmaps, Hcfg. reflexivity.
  - intros e. unfold Off.load_offline. fold index_path'.
    destruct (fs !! index_path') as [dir|] eqn:Hdir.
    + destruct (Off.mappings_json dir) as [maps|] eqn:Hmaps.
      * destruct (Off.config_json dir) as [cfg|] eqn:Hcfg; [discriminate|].
        intros He. injection He as <-. split; [reflexivity|]. right.
        exists dir. auto.
      * intros He. injection He as <-. split; [reflexivity|]. right.
        exists dir. auto.
    + intros He. injection He as <-. auto.
Qed.

Lemma load_offline_accepts_any_counts_witness :
  exists self,
    Off.load_offline disk (Off.init None) (Some "retriever_offline") = Ret (self, true) /\
    (length <$> Off.faiss_index self) = Some 2%nat /\
    size (Off.index_to_chunk_id self) = 1%nat.
Proof.
  eexists. split.
  - apply (proj1 (load_offline_accepts_any_counts (H := backend) disk (Off.init None)
                    (Some "retriever_offline"))
                 mismatched
                 ({[ 0%Z := "c1" ]}, {[ "c1" := [0%Z] ]})
                 {| Off.total_chunks := 1; Off.index_size := 1 |});
      reflexivity.
  - split; reflexivity.
Defined.

(** C8 as stated fails: an index of two vectors with a mapping of one entry
    is loaded. *)
Lemma load_offline_ignores_count_mismatch : ~ count_check_as_stated.
Proof.
  intros Hc.
  destruct (Hc backend disk (Off.init None) (Some "retriever_offline") mismatched
               (keyword_vector <$> ["cats are mammals"; "rust is a language"])
               ({[ 0%Z := "c1" ]}, {[ "c1" := [0%Z] ]}))
    as [e He]; try reflexivity.
  - vm_compute. discriminate.
  - vm_compute in He. discriminate He.
Qed.

(** ** Enrichment with related assets *)

Section Multimodal.
Context `{VectorBackend}.

Lemma set_related_assets_same (c : RetrievedChunk) :
  set_related_assets c (related_assets c) = c.
Proof. destruct c; reflexivity. Qed.

Lemma enhance_Ret (r : retriever) include_assets (c c' : RetrievedChunk) :
  enhance r include_assets c = Ret c' -> exists a, c' = set_related_assets c a.
Proof.
  unfold enhance, run.
  destruct (bool_decide (source_type c = "page") && include_assets).
  - destruct (fault (driver r) QRelatedAssets); simpl; [discriminate|].
    intros Hc. injection Hc as <-. eauto.
  - intros Hc. injection Hc as <-. exists (related_assets c).
    symmetry. apply set_related_assets_same.
Qed.

Lemma enhance_fault (r : retriever) include_assets (c : RetrievedChunk) e :
  fault (driver r) QRelatedAssets = Some e ->
  enhance r include_assets c = Raise e \/ returns (enhance r include_assets c).
Proof.
  intros Hf. unfold enhance, run. rewrite Hf.
  destruct (bool_decide (source_type c = "page") && include_assets); simpl.
  - left. reflexivity.
  - right. eexists. reflexivity.
Qed.

Lemma enhance_returns (r : retriever) include_assets (c : RetrievedChunk) :
  fault (driver r) QRelatedAssets = None -> returns (enhance r include_assets c).
Proof.
  intros Hf. unfold enhance, run. rewrite Hf.
  destruct (bool_decide (source_type c = "page") && include_assets); simpl;
    eexists; reflexivity.
Qed.

(** C9, amended.  Enrichment does not touch the ranking: when semantic
    search answers and the related-assets query does not fail,
    [multimodal_search] returns, and whenever it returns its list is the
    list of semantic results in the same order, each chunk unchanged except
    for its [related_assets].  A failure of the related-assets query is not
    absorbed: if that query fails while assets are asked for and a page
    chunk is among the semantic results, [multimodal_search] raises the
    same exception. *)
Theorem multimodal_search_keeps_ranking_or_raises (r : retriever)
    (query : string) (include_assets : bool) (top_k : nat) :
  (forall sem,
      semantic_search r query top_k = Ret sem ->
      fault (driver r) QRelatedAssets = None ->
      returns (multimodal_search r query include_assets top_k)) /\
  (forall out,
      multimodal_search r query include_assets top_k = Ret out ->
      exists sem,
        semantic_search r query top_k = Ret sem /\
        Forall2 (fun o s => exists a, o = set_related_assets s a) out sem) /\
  (forall sem e c,
      semantic_search r query top_k = Ret sem ->
      fault (driver r) QRelatedAssets = Some e ->
      include_assets = true -> c ∈ sem -> source_type c = "page" ->
      multimodal_search r query include_assets top_k = Raise e).
Proof.
  split; [|split].
  - intros sem Hs Hf. unfold multimodal_search. rewrite Hs. simpl.
    apply mapM_total. intros c _. apply enhance_returns, Hf.
  - intros out Hm. unfold multimodal_search in Hm.
    apply bind_Ret_inv in Hm as (sem & Hs & Hm). exists sem.
    split; [exact Hs|]. apply mapM_Ret_inv in Hm. apply Forall2_flip.
    eapply Forall2_impl; [exact Hm|]. intros c c' Hc.
    eapply enhance_Ret, Hc.
  - intros sem e c Hs Hf -> Hc Hpage. unfold multimodal_search.
    rewrite Hs. simpl. apply (mapM_raises _ _ _ c Hc).
    + unfold enhance, run. rewrite Hf, Hpage. reflexivity.
    + intros y _. apply enhance_fault, Hf.
Qed.
End Multimodal.

Lemma multimodal_search_keeps_ranking_or_raises_witness :
  (exists out sem,
      multimodal_search (H := backend) indexed "cats" true 2 = Ret out /\
      semantic_search (H := backend) indexed "cats" 2 = Ret sem /\
      Forall2 (fun o s => exists a, o = set_related_assets s a) out sem) /\
  multimodal_search (H := backend) flaky "cats" true 2 = Raise DriverError.
Proof.
  split.
  - destruct (multimodal_search (H := backend) indexed "cats" true 2)
      as [out|e] eqn:Hm; [|vm_compute in Hm; discriminate Hm].
    destruct (proj1 (proj2 (multimodal_search_keeps_ranking_or_raises (H := backend)
                              indexed "cats" true 2)) out Hm) as (sem & Hs & Hall).
    exists out, sem. auto.
  - destruct (semantic_search (H := backend) flaky "cats" 2)
      as [sem|e] eqn:Hs; [|vm_compute in Hs; discriminate Hs].
    destruct sem as [|c sem]; [vm_compute in Hs; discriminate Hs|].
    apply (proj2 (proj2 (multimodal_search_keeps_ranking_or_raises (H := backend)
                           flaky "cats" true 2)) (c :: sem) DriverError c Hs).
    + reflexivity.
    + reflexivity.
    + left.
    + vm_compute in Hs. injection Hs as <- _. reflexivity.
Defined.

(** C9 as stated fails: semantic search answers, the related-assets query
    fails, and the multimodal search raises instead of returning the
    chunks without assets. *)
Lemma multimodal_search_propagates_lookup_failure : ~ enrichment_as_stated.
Proof.
  intros Hc.
  destruct (semantic_search (H := backend) flaky "cats" 2) as [sem|e] eqn:Hs;
    [|vm_compute in Hs; discriminate Hs].
  destruct (Hc backend flaky "cats" true 2%nat sem Hs) as (out & Hm & _).
  vm_compute in Hm. discriminate Hm.
Qed.

(** ** Offline search *)

Section Offline.
Context `{VectorBackend}.
Implicit Types (self : Off.offline_retriever) (table : list Off.db_row).

Lemma visit_spec self table results h :
  Off.visit self (Some table) results h =
  Ret (results ++ option_list (reported self table h)).
Proof.
  destruct h as [s idx]. unfold Off.visit, reported, getitem. cbn [fst snd].
  destruct (Off.index_to_chunk_id self !! idx) as [cid|] eqn:Hidx.
  - rewrite bool_decide_eq_true_2 by eauto. simpl.
    destruct (head _) as [row|]; simpl; [reflexivity|].
    rewrite app_nil_r. reflexivity.
  - rewrite bool_decide_eq_false_2 by (intros [? ?]; discriminate).
    simpl. rewrite app_nil_r. reflexivity.
Qed.

Lemma visit_all_spec self table results hits :
  Off.visit_all self (Some table) results hits =
  Ret (results ++ omap (reported self table) hits).
Proof.
  revert results. induction hits as [|h hits IH]; intros results; simpl.
  - rewrite app_nil_r. reflexivity.
  - rewrite visit_spec. simpl. rewrite IH.
    destruct (reported self table h); simpl; rewrite <- app_assoc; reflexivity.
Qed.

Lemma length_omap_le {A B} (f : A -> option B) (l : list A) :
  (length (omap f l) <= length l)%nat.
Proof.
  induction l as [|x l IH]; csimpl; [lia|]. destruct (f x); csimpl; lia.
Qed.

(** C10.  On a loaded retriever whose directory holds the metadata table,
    and with a nearest-neighbour row of [top_k] entries, [search] returns
    and raises nothing.  A label that is not a key of the mapping (the
    padding label [-1] among them) and a chunk id without a row are passed
    over; every other entry is reported, in order, with its score.  So at
    most [top_k] results come back. *)
Theorem offline_search_skips_unmapped
    (fs : gmap string Off.index_dir) self (query : string) (top_k : nat)
    (vectors : list embedding) (model : string) (dir : Off.index_dir) table :
  Off.faiss_index self = Some vectors ->
  Off.embedder self = Some model ->
  fs !! Off.index_path self = Some dir ->
  Off.chunks_db dir = Some table ->
  length (ip_search vectors (encode query) top_k) = top_k ->
  exists results,
    Off.search fs self query top_k = Ret results /\
    (length results <= top_k)%nat /\
    results = omap (reported self table) (ip_search vectors (encode query) top_k) /\
    (forall s idx, Off.index_to_chunk_id self !! idx = None ->
                   reported self table (s, idx) = None).
Proof.
  intros Hix Hemb Hdir Htab Hlen. eexists. split; [|split; [|split]].
  - unfold Off.search. rewrite Hix, Hemb, Hdir, Htab.
    rewrite visit_all_spec. reflexivity.
  - simpl. rewrite <- Hlen at 2. apply length_omap_le.
  - reflexivity.
  - intros s idx Hnone. unfold reported. simpl. rewrite Hnone. reflexivity.
Qed.
End Offline.

(** The online [semantic_search] has no such guard: asked for five
    neighbours of four stored splits, it looks up the padding label and
    raises [KeyError]. *)
Example semantic_search_padding_raises :
  semantic_search (H := backend) indexed "cats" 5 = Raise KeyError.
Proof. vm_compute. reflexivity. Qed.

(** Two vectors are stored and five neighbours are asked for: the row is
    padded with [-1] three times; label 1 has no mapping entry; the one
    mapped label is reported. *)
Example offline_search_padded :
  snd <$> flat_ip_search (keyword_vector <$> ["cats are mammals"; "rust is a language"])
                         (keyword_vector "cats") 5
    = [0; 1; -1; -1; -1]%Z /\
  exists h, Off.search (H := backend) disk loaded "cats" 5 = Ret [h] /\
            Off.hit_chunk_id h = "c1".
Proof.
  split; [vm_compute; reflexivity|].
  eexists. split; [vm_compute; reflexivity | reflexivity].
Qed.

Lemma offline_search_skips_unmapped_witness :
  exists results,
    Off.search (H := backend) disk loaded "cats" 5 = Ret results /\
    (length results <= 5)%nat.
Proof.
  destruct (offline_search_skips_unmapped (H := backend) disk loaded "cats" 5
              (keyword_vector <$> ["cats are mammals"; "rust is a language"])
              "all-MiniLM-L6-v2" mismatched
              [ {| Off.col_chunk_id := "c1";
                   Off.col_text := Some "cats are mammals";
                   Off.col_modality := Some "text";
                   Off.col_page_url := Some "https://site/pets";
                   Off.col_asset_url := None;
                   Off.col_asset_filename := None;
                   Off.col_asset_type := None;
                   Off.col_source_url := Some "https://site/pets";
                   Off.col_source_type := Some "page";
                   Off.col_source_title := Some "https://site/pets" |} ])
    as (results & Hs & Hlen & _); try reflexivity.
  exists results. auto.
Defined.

(** ** What semantic search returns *)

Section Semantic.
Context `{VectorBackend}.

Lemma filter_agree {A} (P Q : A -> Prop) `{!forall x, Decision (P x)}
    `{!forall x, Decision (Q x)} (l : list A) :
  (forall x, x ∈ l -> P x <-> Q x) -> filter P l = filter Q l.
Proof.
  induction l as [|x l IH]; intros Hall; [reflexivity|].
  rewrite !filter_cons, IH by (intros y Hy; apply Hall; right; exact Hy).
  pose proof (Hall x (list_elem_of_here _ _)) as Hx.
  destruct (decide (P x)) as [Hp|Hp], (decide (Q x)) as [Hq|Hq]; tauto || reflexivity.
Qed.

Lemma optional_inhabited {A} (l : list A) : exists x, x ∈ optional l.
Proof. destruct l as [|a l]; simpl; eexists; left. Qed.

Lemma chunk_details_ids (g : graph) (ids : list string) (k : string) :
  (exists row, row ∈ chunk_details ids g /\ d_chunk_id row = k) <->
  k ∈ ids /\ k ∈ stored_ids g.
Proof.
  unfold chunk_details, stored_ids, all_chunks. split.
  - intros (row & Hrow & <-).
    apply list_elem_of_bind in Hrow as (cid & Hrow & Hcid).
    apply list_elem_of_bind in Hrow as ([ci n] & Hrow & Hn).
    apply elem_of_lookup_imap in Hn as (ci' & n' & Heq & Hn).
    injection Heq as -> ->.
    destruct n' as [| |id t m]; try (inversion Hrow; fail).
    destruct (decide (id = cid)) as [->|]; [|inversion Hrow].
    apply list_elem_of_bind in Hrow as (p & Hrow & _).
    apply list_elem_of_bind in Hrow as (a & Hrow & _).
    apply list_elem_of_singleton in Hrow. subst row. simpl.
    split; [exact Hcid|]. apply list_elem_of_fmap. exists (cid, t, m).
    split; [reflexivity|]. apply list_elem_of_omap.
    exists (ChunkNode cid t m). split; [|reflexivity].
    apply list_elem_of_lookup. eauto.
  - intros [Hk Hs]. apply list_elem_of_fmap in Hs as ([[id t] m] & -> & Hs).
    simpl in Hk |- *. apply list_elem_of_omap in Hs as (n & Hn & Hsome).
    destruct n as [| |id' t' m']; try discriminate. injection Hsome as -> -> ->.
    apply list_elem_of_lookup in Hn as [ci Hci].
    destruct (optional_inhabited (filter (fun x => is_page x = true) (owners g ci)))
      as [p Hp].
    destruct (optional_inhabited (filter (fun x => is_asset x = true) (owners g ci)))
      as [a Ha].
    eexists. split.
    + apply list_elem_of_bind. exists id. split; [|exact Hk].
      apply list_elem_of_bind. exists (ci, ChunkNode id t m). split.
      * rewrite decide_True by reflexivity.
        apply list_elem_of_bind. exists p. split; [|exact Hp].
        apply list_elem_of_bind. exists a. split; [left | exact Ha].
      * apply (elem_of_lookup_imap_2 (fun i n => (i, n))). exact Hci.
    + reflexivity.
Qed.

Lemma chunk_data_lookup (rows : list detail_row) (m0 : gmap string detail_row) k :
  is_Some (foldl (fun m row => <[d_chunk_id row := row]> m) m0 rows !! k) <->
  is_Some (m0 !! k) \/ exists row, row ∈ rows /\ d_chunk_id row = k.
Proof.
  revert m0. induction rows as [|row rows IH]; intros m0; simpl.
  - split; [auto|]. intros [Hm|(row & Hrow & _)]; [exact Hm | inversion Hrow].
  - rewrite IH. split.
    + intros [Hm|(row' & Hrow & Hk)].
      * destruct (decide (d_chunk_id row = k)) as [Heq|Hne].
        -- right. exists row. split; [left | exact Heq].
        -- rewrite lookup_insert_ne in Hm by exact Hne. auto.
      * right. exists row'. split; [right; exact Hrow | exact Hk].
    + intros [Hm|(row' & Hrow & Hk)].
      * left. destruct (decide (d_chunk_id row = k)) as [<-|Hne].
        -- rewrite lookup_insert_eq. eauto.
        -- rewrite lookup_insert_ne by exact Hne. exact Hm.
      * apply elem_of_cons in Hrow as [->|Hrow].
        -- left. rewrite <- Hk, lookup_insert_eq. eauto.
        -- right. eauto.
Qed.

Lemma results_ids (cd : gmap string detail_row) (scores : list Q) (ids : list string) :
  length scores = length ids ->
  chunk_id <$> omap (fun '(s, cid) => result_of_row cid s <$> cd !! cid) (zip scores ids)
  = Some <$> filter (fun id => is_Some (cd !! id)) ids.
Proof.
  revert scores. induction ids as [|id ids IH]; intros [|s scores] Hlen;
    try discriminate; [reflexivity|].
  injection Hlen as Hlen. cbn [zip zip_with omap list_omap]. rewrite filter_cons.
  destruct (cd !! id) as [data|] eqn:Hid.
  - rewrite decide_True by eauto. cbn. f_equal. apply IH, Hlen.
  - rewrite decide_False by (intros [? ?]; discriminate). cbn. apply IH, Hlen.
Qed.

(** [semantic_search] returns one entry per label of the nearest-neighbour
    row whose chunk is in the store, in the order of the row. *)
Lemma semantic_search_ids (r : retriever) (query : string) (top_k : nat)
    (sem : list RetrievedChunk) :
  semantic_search r query top_k = Ret sem ->
  exists vectors ids,
    faiss_index r = Some vectors /\
    Forall2 (fun h id => index_to_chunk_id r !! h.2 = Some id)
            (ip_search vectors (encode query) top_k) ids /\
    chunk_id <$> sem =
    Some <$> filter (fun id => id ∈ stored_ids (store (driver r))) ids.
Proof.
  unfold semantic_search. destruct (faiss_index r) as [vectors|]; [|discriminate].
  intros Hs. apply bind_Ret_inv in Hs as (ids & Hids & Hs).
  apply bind_Ret_inv in Hs as (rows & Hrows & Hs). injection Hs as <-.
  apply mapM_Ret_inv in Hids.
  unfold run in Hrows. destruct (fault (driver r) QChunkDetails); [discriminate|].
  injection Hrows as <-.
  exists vectors, ids. split; [reflexivity|]. split.
  - eapply Forall2_impl; [exact Hids|]. intros h id Hg. unfold getitem in Hg.
    destruct (index_to_chunk_id r !! h.2); [|discriminate]. congruence.
  - rewrite results_ids.
    + f_equal. apply filter_agree. intros id Hid.
      rewrite chunk_data_lookup, chunk_details_ids, lookup_empty.
      split.
      * intros [[? ?]|[_ Hs]]; [discriminate | exact Hs].
      * intros Hs. right. auto.
    + rewrite length_fmap. eapply Forall2_length, Hids.
Qed.

(** C3, amended.  The list returned by [hybrid_search] holds each
    [chunk_id] at most once, because the fusion step keys its scores by
    [chunk_id].  [semantic_search] does not merge: it returns one entry per
    label of the nearest-neighbour row whose chunk is in the store, in the
    order of the row, so a chunk comes back once for each of its splits in
    the row. *)
Theorem hybrid_search_merges_semantic_search_does_not (r : retriever)
    (query : string) (top_k : nat) :
  (forall sw gw out,
      hybrid_search r query sw gw top_k = Ret out -> NoDup (chunk_id <$> out)) /\
  (forall sem,
      semantic_search r query top_k = Ret sem ->
      exists vectors ids,
        faiss_index r = Some vectors /\
        Forall2 (fun h id => index_to_chunk_id r !! h.2 = Some id)
                (ip_search vectors (encode query) top_k) ids /\
        chunk_id <$> sem =
        Some <$> filter (fun id => id ∈ stored_ids (store (driver r))) ids).
Proof.
  split.
  - intros sw gw out Hh. unfold hybrid_search in Hh.
    apply bind_Ret_inv in Hh as (sem & _ & Hh).
    apply bind_Ret_inv in Hh as (gr & _ & Hh).
    eapply fuse_NoDup, Hh.
  - intros sem Hs. apply semantic_search_ids, Hs.
Qed.
End Semantic.

Lemma hybrid_search_merges_semantic_search_does_not_witness :
  exists out,
    hybrid_search (H := backend) indexed "cats" (7#10) (3#10) 2 = Ret out /\
    NoDup (chunk_id <$> out).
Proof.
  eexists. split; [vm_compute; reflexivity|].
  apply (proj1 (hybrid_search_merges_semantic_search_does_not (H := backend)
                  indexed "cats" 2) (7#10)%Q (3#10)%Q).
  vm_compute. reflexivity.
Defined.

(** C3 as stated fails for [semantic_search]: the two best splits for
    "cats" both belong to chunk [c1], and the chunk is returned twice. *)
Lemma semantic_search_repeats_chunk : ~ deduplicated_as_stated.
Proof.
  intros Hc.
  destruct (semantic_search (H := backend) indexed "cats" 2) as [out|e] eqn:Hs;
    [|vm_compute in Hs; discriminate Hs].
  specialize (Hc backend indexed "cats" 2%nat out Hs).
  assert (Hids : chunk_id <$> out = [Some "c1"; Some "c1"]).
  { vm_compute in Hs. injection Hs as <-. reflexivity. }
  rewrite Hids in Hc. apply NoDup_cons in Hc as [Hn _]. apply Hn. left.
Qed.


(** * More of the code *)

(** ** The mappings built by [build_vector_index] *)

Lemma numbered_snoc (l : list string) (c : string) :
  numbered (l ++ [c]) = numbered l ++ [(Z.of_nat (length l), c)].
Proof.
  unfold numbered. rewrite imap_app. simpl. rewrite Nat.add_0_r. reflexivity.
Qed.

Lemma index_map_of_snoc (l : list string) (c : string) :
  index_map_of (l ++ [c]) = <[Z.of_nat (length l) := c]> (index_map_of l).
Proof. unfold index_map_of. rewrite numbered_snoc, foldl_snoc. reflexivity. Qed.

Lemma chunk_map_of_snoc (l : list string) (c : string) :
  chunk_map_of (l ++ [c]) =
  <[c := default [] (chunk_map_of l !! c) ++ [Z.of_nat (length l)]]> (chunk_map_of l).
Proof. unfold chunk_map_of. rewrite numbered_snoc, foldl_snoc. reflexivity. Qed.

(** Label [i] is a key exactly when it is a position of the list, and it is
    mapped to the entry at that position. *)
Lemma index_map_of_lookup (l : list string) (i : Z) :
  index_map_of l !! i = if decide (0 <= i)%Z then l !! Z.to_nat i else None.
Proof.
  induction l as [|c l IH] using rev_ind.
  - unfold index_map_of. simpl. rewrite lookup_empty.
    destruct (decide (0 <= i)%Z); reflexivity.
  - rewrite index_map_of_snoc.
    destruct (decide (Z.of_nat (length l) = i)) as [<-|Hne].
    + rewrite lookup_insert_eq. rewrite decide_True by lia.
      rewrite Nat2Z.id. symmetry. apply lookup_snoc_Some. right. auto.
    + rewrite lookup_insert_ne by exact Hne. rewrite IH.
      destruct (decide (0 <= i)%Z) as [Hi|Hi]; [|reflexivity].
      assert (Hn : Z.to_nat i <> length l) by lia.
      destruct (decide (Z.to_nat i < length l)%nat) as [Hlt|Hge].
      * rewrite lookup_app_l by exact Hlt. reflexivity.
      * rewrite !lookup_ge_None_2; [reflexivity | rewrite length_app; simpl; lia | lia].
Qed.

(** The two dictionaries agree: [i] is listed under [c] exactly when [i] is
    mapped to [c]; every list is non-empty and strictly increasing. *)
Lemma chunk_map_of_spec (l : list string) :
  (forall c i, i ∈ default [] (chunk_map_of l !! c) <-> index_map_of l !! i = Some c) /\
  (forall c ixs, chunk_map_of l !! c = Some ixs ->
                 ixs <> [] /\ StronglySorted Z.lt ixs).
Proof.
  induction l as [|c0 l [IH1 IH2]] using rev_ind.
  - split.
    + intros c i. unfold chunk_map_of, index_map_of. simpl.
      rewrite !lookup_empty. simpl. split; [inversion 1 | discriminate].
    + intros c ixs. unfold chunk_map_of. simpl. rewrite lookup_empty. discriminate.
  - assert (Hfresh : index_map_of l !! Z.of_nat (length l) = None).
    { rewrite index_map_of_lookup, decide_True by lia.
      rewrite Nat2Z.id. apply lookup_ge_None_2. lia. }
    assert (Hbelow : forall c i, i ∈ default [] (chunk_map_of l !! c) ->
                                 (i < Z.of_nat (length l))%Z).
    { intros c i Hi. apply IH1 in Hi. rewrite index_map_of_lookup in Hi.
      destruct (decide (0 <= i)%Z) as [Hi0|]; [|discriminate].
      apply lookup_lt_Some in Hi. lia. }
    rewrite chunk_map_of_snoc, index_map_of_snoc. split.
    + intros c i. destruct (decide (c0 = c)) as [->|Hne].
      * rewrite lookup_insert_eq. simpl. rewrite elem_of_app, list_elem_of_singleton.
        rewrite IH1. destruct (decide (Z.of_nat (length l) = i)) as [<-|Hi].
        -- rewrite lookup_insert_eq. split; auto.
        -- rewrite lookup_insert_ne by exact Hi. split; [|auto].
           intros [Hs|Heq]; [exact Hs | congruence].
      * rewrite lookup_insert_ne by exact Hne. rewrite IH1.
        destruct (decide (Z.of_nat (length l) = i)) as [<-|Hi].
        -- rewrite lookup_insert_eq, Hfresh. split; [discriminate | congruence].
        -- rewrite lookup_insert_ne by exact Hi. reflexivity.
    + intros c ixs. destruct (decide (c0 = c)) as [->|Hne].
      * rewrite lookup_insert_eq. intros Heq. injection Heq as <-. split.
        -- intros Hnil. apply app_eq_nil in Hnil as [_ Hnil]. discriminate.
        -- apply StronglySorted_app_2.
           ++ intros x1 x2 Hx1 Hx2. apply list_elem_of_singleton in Hx2. subst x2.
              eapply Hbelow, Hx1.
           ++ destruct (chunk_map_of l !! c) as [old|] eqn:Hold; simpl;
                [eapply IH2, Hold | constructor].
           ++ repeat constructor.
      * rewrite lookup_insert_ne by exact Hne. apply IH2.
Qed.

Section BuildMappings.
Context `{VectorBackend}.

Lemma build_vector_index_built (r : retriever) :
  fault (driver r) QAllChunks = None ->
  collect_splits (all_chunks (store (driver r))) <> [] ->
  build_vector_index r = Ret (built r).
Proof.
  intros Hf Hne. unfold build_vector_index, built, run. rewrite Hf. simpl.
  destruct (all_chunks (store (driver r))) as [|ch chs] eqn:Hall.
  - exfalso. apply Hne. reflexivity.
  - destruct (collect_splits (ch :: chs)) as [|sp sps] eqn:Hsp; [contradiction|].
    reflexivity.
Qed.

(** X1.  When the store answers and some chunk yields a non-empty split,
    [build_vector_index] returns a retriever that holds one vector per
    split, maps exactly the labels [0 .. n-1] to the chunk of the split at
    that position (no other label, the padding label [-1] included, is a
    key), and lists under every chunk id exactly the labels mapped to it, in
    increasing order. *)
Theorem build_vector_index_mappings (r : retriever) :
  fault (driver r) QAllChunks = None ->
  collect_splits (all_chunks (store (driver r))) <> [] ->
  let splits := collect_splits (all_chunks (store (driver r))) in
  exists r',
    build_vector_index r = Ret r' /\
    driver r' = driver r /\
    faiss_index r' = Some (encode <$> splits.*1) /\
    (forall i : Z,
        index_to_chunk_id r' !! i =
        if decide (0 <= i)%Z then splits.*2 !! Z.to_nat i else None) /\
    (forall c i, i ∈ default [] (chunk_id_to_index r' !! c) <->
                 index_to_chunk_id r' !! i = Some c) /\
    (forall c ixs, chunk_id_to_index r' !! c = Some ixs ->
                   ixs <> [] /\ StronglySorted Z.lt ixs).
Proof.
  intros Hf Hne splits. exists (built r).
  split; [apply build_vector_index_built; assumption|].
  simpl. split; [reflexivity|]. split; [reflexivity|]. split.
  - apply index_map_of_lookup.
  - apply chunk_map_of_spec.
Qed.
End BuildMappings.

Lemma build_vector_index_mappings_witness :
  exists r',
    build_vector_index (H := backend) (init (healthy cycle)) = Ret r' /\
    index_to_chunk_id r' !! 1%Z = Some "b1" /\
    index_to_chunk_id r' !! (-1)%Z = None /\
    (forall i, i ∈ default [] (chunk_id_to_index r' !! "a1") <->
               index_to_chunk_id r' !! i = Some "a1").
Proof.
  destruct (build_vector_index_mappings (H := backend) (init (healthy cycle)))
    as (r' & Hb & _ & _ & Hidx & Hagree & _);
    [reflexivity | vm_compute; discriminate |].
  exists r'. split; [exact Hb|]. split; [|split].
  - rewrite Hidx. vm_compute. reflexivity.
  - rewrite Hidx. reflexivity.
  - apply Hagree.
Defined.

(** ** Outcomes and results of [semantic_search] *)

Section SemanticOutcome.
Context `{VectorBackend}.
Implicit Types (r : retriever).

Lemma getitem_cases (m : gmap Z string) (idx : Z) :
  getitem m idx = Raise KeyError \/ returns (getitem m idx).
Proof.
  unfold getitem. destruct (m !! idx); [right; eexists; reflexivity | left; reflexivity].
Qed.

Lemma chunk_data_from_rows (rows : list detail_row) (m0 : gmap string detail_row)
    (k : string) (data : detail_row) :
  foldl (fun m row => <[d_chunk_id row := row]> m) m0 rows !! k = Some data ->
  m0 !! k = Some data \/ (data ∈ rows /\ d_chunk_id data = k).
Proof.
  revert m0. induction rows as [|row rows IH]; intros m0 Hk; simpl in Hk; [auto|].
  destruct (IH _ Hk) as [Hm|[Hin Hid]].
  - apply lookup_insert_Some in Hm as [[<- <-]|[_ Hm]]; [right; split; [left|] | left];
      auto.
  - right. split; [right; exact Hin | exact Hid].
Qed.

Lemma chunk_details_row (g : graph) (ids : list string) (row : detail_row) :
  row ∈ chunk_details ids g ->
  d_page_title row = d_page_url row /\ d_chunk_id row ∈ stored_ids g.
Proof.
  intros Hrow. split.
  - unfold chunk_details in Hrow.
    apply list_elem_of_bind in Hrow as (cid & Hrow & _).
    apply list_elem_of_bind in Hrow as ([ci n] & Hrow & _).
    destruct n as [| |id t m]; try (inversion Hrow; fail).
    destruct (decide (id = cid)); [|inversion Hrow].
    apply list_elem_of_bind in Hrow as (p & Hrow & _).
    apply list_elem_of_bind in Hrow as (a & Hrow & _).
    apply list_elem_of_singleton in Hrow. subst row. reflexivity.
  - apply (chunk_details_ids g ids (d_chunk_id row)). eauto.
Qed.

Lemma semantic_search_KeyError r (query : string) (top_k : nat) vectors h :
  faiss_index r = Some vectors ->
  h ∈ ip_search vectors (encode query) top_k ->
  index_to_chunk_id r !! h.2 = None ->
  semantic_search r query top_k = Raise KeyError.
Proof.
  intros Hi Hh Hnone. unfold semantic_search. rewrite Hi.
  rewrite (mapM_raises _ _ KeyError h Hh); [reflexivity| |].
  - unfold getitem. rewrite Hnone. reflexivity.
  - intros y _. apply getitem_cases.
Qed.

Lemma semantic_search_mapped r (query : string) (top_k : nat) vectors :
  faiss_index r = Some vectors ->
  (forall h, h ∈ ip_search vectors (encode query) top_k ->
             is_Some (index_to_chunk_id r !! h.2)) ->
  match fault (driver r) QChunkDetails with
  | Some e => semantic_search r query top_k = Raise e
  | None => exists sem, semantic_search r query top_k = Ret sem /\
                        (length sem <= length (ip_search vectors (encode query) top_k))%nat
  end.
Proof.
  intros Hi Hall. unfold semantic_search. rewrite Hi.
  destruct (mapM_total (fun h => getitem (index_to_chunk_id r) (h.2))
              (ip_search vectors (encode query) top_k)) as [ids Hids].
  { intros h Hh. destruct (Hall h Hh) as [c Hc]. unfold getitem. rewrite Hc.
    eexists. reflexivity. }
  rewrite Hids. simpl. unfold run.
  destruct (fault (driver r) QChunkDetails) as [e|]; simpl; [reflexivity|].
  eexists. split; [reflexivity|].
  etransitivity; [apply length_omap_le|].
  rewrite length_zip, length_fmap. lia.
Qed.

(** X2.  [semantic_search] on a retriever without index raises
    [ValueError], whatever the store.  With an index it raises [KeyError]
    as soon as one label of the nearest-neighbour row is not a key of
    [index_to_chunk_id]; otherwise it raises what the chunk lookup raises,
    if that fails; otherwise it returns, with no more results than the row
    has labels. *)
Theorem semantic_search_outcome r (query : string) (top_k : nat) :
  (faiss_index r = None ->
   semantic_search r query top_k =
   Raise (ValueError "Vector index not built. Call build_vector_index() first.")) /\
  (forall vectors,
      faiss_index r = Some vectors ->
      let hits := ip_search vectors (encode query) top_k in
      (forall h, h ∈ hits -> index_to_chunk_id r !! h.2 = None ->
                 semantic_search r query top_k = Raise KeyError) /\
      ((forall h, h ∈ hits -> is_Some (index_to_chunk_id r !! h.2)) ->
       match fault (driver r) QChunkDetails with
       | Some e => semantic_search r query top_k = Raise e
       | None => exists sem, semantic_search r query top_k = Ret sem /\
                             (length sem <= length hits)%nat
       end)).
Proof.
  split.
  - intros Hi. unfold semantic_search. rewrite Hi. reflexivity.
  - intros vectors Hi hits. split.
    + intros h Hh Hnone. eapply semantic_search_KeyError; eassumption.
    + intros Hall. apply semantic_search_mapped; assumption.
Qed.

(** X4.  After a successful [build_vector_index] over [n] splits,
    [semantic_search] raises [KeyError] whenever the nearest-neighbour row
    holds a label outside [0 .. n-1] (the padding label [-1] that the flat
    index emits when [top_k] exceeds [n] is one), and returns when all
    labels are inside and the chunk lookup answers. *)
Theorem semantic_search_after_build r (query : string) (top_k : nat) :
  fault (driver r) QAllChunks = None ->
  collect_splits (all_chunks (store (driver r))) <> [] ->
  let splits := collect_splits (all_chunks (store (driver r))) in
  let hits := ip_search (encode <$> splits.*1) (encode query) top_k in
  exists r',
    build_vector_index r = Ret r' /\
    (forall h, h ∈ hits -> ~ (0 <= h.2 < Z.of_nat (length splits))%Z ->
               semantic_search r' query top_k = Raise KeyError) /\
    ((forall h, h ∈ hits -> (0 <= h.2 < Z.of_nat (length splits))%Z) ->
     fault (driver r) QChunkDetails = None ->
     exists sem, semantic_search r' query top_k = Ret sem /\
                 (length sem <= length hits)%nat).
Proof.
  intros Hf Hne splits hits. exists (built r).
  split; [apply build_vector_index_built; assumption|]. split.
  - intros h Hh Hout.
    apply (semantic_search_KeyError (built r) query top_k (encode <$> splits.*1) h);
      [reflexivity | exact Hh|].
    simpl. rewrite index_map_of_lookup.
    destruct (decide (0 <= h.2)%Z) as [H0|]; [|reflexivity].
    apply lookup_ge_None_2. rewrite length_fmap. fold splits. lia.
  - intros Hall Hfd.
    pose proof (semantic_search_mapped (built r) query top_k (encode <$> splits.*1)
                  eq_refl) as Hm.
    simpl in Hm. rewrite Hfd in Hm. apply Hm.
    intros h Hh. destruct (Hall h Hh) as [H0 Hn].
    rewrite index_map_of_lookup, decide_True by exact H0.
    apply lookup_lt_is_Some_2. rewrite length_fmap. fold splits. lia.
Qed.

(** X3.  Every chunk returned by [semantic_search] is a chunk of the store
    and carries no context path and no related assets.  Its source type is
    "page" or "asset", and it is "page" exactly when the chunk has a page
    url; for a page chunk the reported title is the page url itself. *)
Theorem semantic_search_result_fields r (query : string) (top_k : nat)
    (sem : list RetrievedChunk) (c : RetrievedChunk) :
  semantic_search r query top_k = Ret sem -> c ∈ sem ->
  (exists id, chunk_id c = Some id /\ id ∈ stored_ids (store (driver r))) /\
  context_path c = None /\ related_assets c = None /\
  (source_type c = "page" \/ source_type c = "asset") /\
  (source_type c = "page" ->
   truthy (source_url c) = true /\ source_title c = source_url c).
Proof.
  unfold semantic_search. destruct (faiss_index r) as [vectors|]; [|discriminate].
  intros Hs Hc. apply bind_Ret_inv in Hs as (ids & _ & Hs).
  apply bind_Ret_inv in Hs as (rows & Hrows & Hs). injection Hs as <-.
  unfold run in Hrows. destruct (fault (driver r) QChunkDetails); [discriminate|].
  injection Hrows as <-.
  apply list_elem_of_omap in Hc as ([s cid] & _ & Hc).
  destruct (_ !! cid) as [data|] eqn:Hdata; [|discriminate].
  injection Hc as <-.
  apply chunk_data_from_rows in Hdata as [Hdata|[Hin Hid]];
    [rewrite lookup_empty in Hdata; discriminate|].
  apply chunk_details_row in Hin as [Htitle Hstored].
  unfold result_of_row. simpl. rewrite Htitle. unfold py_or.
  split; [exists cid; split; [reflexivity | rewrite <- Hid; exact Hstored]|].
  split; [reflexivity|]. split; [reflexivity|].
  destruct (truthy (d_page_url data)) eqn:Hp.
  - split; [left; reflexivity|]. intros _. split; [exact Hp | reflexivity].
  - split; [right; reflexivity|]. discriminate.
Qed.
End SemanticOutcome.

Lemma small_index :
  faiss_index MoreExamples.small = Some [[1%Q; 0%Q; 0%Q]; [1%Q; 0%Q; 0%Q]].
Proof. vm_compute. reflexivity. Qed.

Lemma semantic_search_outcome_witness :
  semantic_search (H := backend) MoreExamples.small "cats" 3 = Raise KeyError /\
  exists sem, semantic_search (H := backend) MoreExamples.small "cats" 2 = Ret sem /\
              (length sem <= 2)%nat.
Proof.
  pose proof (proj2 (semantic_search_outcome (H := backend) MoreExamples.small "cats" 3)
                _ small_index) as [Hkey _].
  pose proof (proj2 (semantic_search_outcome (H := backend) MoreExamples.small "cats" 2)
                _ small_index) as [_ Hret].
  split.
  - apply (Hkey ((- (340282346638528859811704183484516925440 # 1))%Q, (-1)%Z)).
    + vm_compute. do 2 right. left.
    + vm_compute. reflexivity.
  - destruct Hret as (sem & Hs & Hlen).
    + intros h Hh. vm_compute in Hh.
      repeat (apply elem_of_cons in Hh as [->|Hh]; [eexists; vm_compute; reflexivity|]).
      inversion Hh.
    + exists sem. split; [exact Hs|]. etransitivity; [exact Hlen|].
      vm_compute. lia.
Defined.

Lemma semantic_search_result_fields_witness :
  exists sem c,
    semantic_search (H := backend) MoreExamples.small "cats" 2 = Ret sem /\ c ∈ sem /\
    source_type c = "page" /\ source_title c = source_url c.
Proof.
  destruct (semantic_search (H := backend) MoreExamples.small "cats" 2) as [sem|e] eqn:Hs;
    [|vm_compute in Hs; discriminate Hs].
  destruct sem as [|c sem]; [vm_compute in Hs; discriminate Hs|].
  exists (c :: sem), c. split; [reflexivity|]. split; [left|].
  assert (Hpage : source_type c = "page").
  { vm_compute in Hs. injection Hs as <- _. reflexivity. }
  split; [exact Hpage|].
  apply (semantic_search_result_fields (H := backend) MoreExamples.small "cats" 2
           (c :: sem) c Hs); [left | exact Hpage].
Defined.

Lemma semantic_search_after_build_witness :
  exists r',
    build_vector_index (H := backend) (init (healthy cycle)) = Ret r' /\
    semantic_search (H := backend) r' "cats" 3 = Raise KeyError.
Proof.
  destruct (semantic_search_after_build (H := backend) (init (healthy cycle)) "cats" 3)
    as (r' & Hb & Hkey & _); [reflexivity | vm_compute; discriminate |].
  exists r'. split; [exact Hb|].
  apply (Hkey ((- (340282346638528859811704183484516925440 # 1))%Q, (-1)%Z)).
  - vm_compute. do 2 right. left.
  - cbn [snd]. lia.
Defined.

(** ** The global scan of [graph_walk_search] *)

Section GlobalScan.
Context `{VectorBackend}.
Implicit Types (r : retriever).

Lemma elem_of_global_scan (term : string) (g : graph) (row : walk_row) :
  row ∈ global_scan term g ->
  exists ci id t m,
    nodes g !! ci = Some (ChunkNode id (Some t) m) /\ contains t term = true /\
    w_chunk_id row = Some id /\ w_text row = Some t /\ w_modality row = m /\
    w_depth row = 0%nat /\ w_path_urls row = [].
Proof.
  unfold global_scan. intros Hrow.
  apply list_elem_of_bind in Hrow as ([ci n] & Hrow & Hn).
  apply elem_of_lookup_imap in Hn as (ci' & n' & Heq & Hn). injection Heq as -> ->.
  destruct n' as [| |id t m]; try (inversion Hrow; fail).
  destruct t as [t|]; simpl in Hrow; [|inversion Hrow].
  destruct (contains t term) eqn:Hc; simpl in Hrow; [|inversion Hrow].
  apply list_elem_of_bind in Hrow as (p & Hrow & _).
  apply list_elem_of_bind in Hrow as (a & Hrow & _).
  apply list_elem_of_singleton in Hrow. subst row.
  exists ci', id, t, m. simpl. auto 10.
Qed.

Lemma global_scan_complete (term : string) (g : graph) ci id t m :
  nodes g !! ci = Some (ChunkNode id (Some t) m) -> contains t term = true ->
  exists row, row ∈ global_scan term g /\
              w_chunk_id row = Some id /\ w_text row = Some t.
Proof.
  intros Hn Hc. unfold global_scan.
  destruct (optional_inhabited (filter (fun x => is_page x = true) (owners g ci)))
    as [p Hp].
  destruct (optional_inhabited (filter (fun x => is_asset x = true) (owners g ci)))
    as [a Ha].
  eexists. split.
  - apply list_elem_of_bind. exists (ci, ChunkNode id (Some t) m). split.
    + simpl. rewrite Hc. simpl.
      apply list_elem_of_bind. exists p. split; [|exact Hp].
      apply list_elem_of_bind. exists a. split; [left | exact Ha].
    + apply (elem_of_lookup_imap_2 (fun i n => (i, n))). exact Hn.
  - simpl. auto.
Qed.

(** X5.  Without start urls ([None] or an empty list) and with the store
    answering, [graph_walk_search] returns, whatever [max_depth].  Every
    result has score 1 and an empty context path, and is a chunk of the
    store whose text contains the match term exactly as written (the source
    title is not looked at); every chunk of the store whose text contains
    the term is among the results. *)
Theorem graph_walk_search_global r (query : string)
    (start_urls : option (list string)) (max_depth : nat) :
  nonempty start_urls = false ->
  fault (driver r) QGlobalScan = None ->
  let g := store (driver r) in
  let term := main_term query in
  exists out,
    graph_walk_search r query start_urls max_depth = Ret out /\
    (forall c, c ∈ out ->
       (score c == 1)%Q /\ context_path c = Some [] /\
       exists ci id t m,
         nodes g !! ci = Some (ChunkNode id (Some t) m) /\
         contains t term = true /\
         chunk_id c = Some id /\ text c = Some t /\ modality c = m) /\
    (forall ci id t m,
       nodes g !! ci = Some (ChunkNode id (Some t) m) -> contains t term = true ->
       exists c, c ∈ out /\ chunk_id c = Some id /\ text c = Some t).
Proof.
  intros Hne Hf g term. unfold graph_walk_search, run. rewrite Hne, Hf. simpl.
  eexists. split; [reflexivity|]. split.
  - intros c Hc. apply list_elem_of_fmap in Hc as (row & -> & Hrow).
    apply elem_of_global_scan in Hrow
      as (ci & id & t & m & Hn & Hcont & Hid & Ht & Hm & Hd & Hp).
    simpl. rewrite Hd, Hp. split; [reflexivity|]. split; [reflexivity|].
    exists ci, id, t, m. auto.
  - intros ci id t m Hn Hcont.
    destruct (global_scan_complete term g ci id t m Hn Hcont) as (row & Hrow & Hid & Ht).
    exists (chunk_of_row row). split; [|simpl; auto].
    apply list_elem_of_fmap. eauto.
Qed.
End GlobalScan.

Lemma graph_walk_search_global_witness :
  exists out,
    graph_walk_search (H := backend) (init (healthy cycle)) "Cats at" None 7 = Ret out /\
    exists c, c ∈ out /\ chunk_id c = Some "b1" /\ text c = Some "cats elsewhere".
Proof.
  destruct (graph_walk_search_global (H := backend) (init (healthy cycle)) "Cats at" None 7)
    as (out & Hg & _ & Hall); [reflexivity | reflexivity |].
  exists out. split; [exact Hg|].
  apply (Hall 3%nat "b1" "cats elsewhere" (Some "text")); reflexivity.
Defined.

(** ** The depth of the seeded walk saturates *)

Section Saturation.
Variable g : graph.

Lemma used_rels_length rs : used_rels g rs -> (length rs <= length (rels g))%nat.
Proof.
  intros [Hnd Hlt]. rewrite <- (length_seq (length (rels g)) 0).
  apply submseteq_length, NoDup_submseteq; [exact Hnd|].
  intros i Hi. apply elem_of_seq. specialize (Hlt i Hi). lia.
Qed.

Lemma used_rels_step rs cur i n :
  used_rels g rs -> (i, n) ∈ steps g rs cur -> used_rels g (rs ++ [i]).
Proof.
  intros [Hnd Hlt] Hs. apply steps_spec in Hs as [Hu (r & Hr & _)]. split.
  - apply NoDup_app. split; [exact Hnd|]. split; [|apply NoDup_singleton].
    intros x Hx Hx'. apply list_elem_of_singleton in Hx'. subst. contradiction.
  - intros j Hj. apply elem_of_app in Hj as [Hj|Hj]; [auto|].
    apply list_elem_of_singleton in Hj. subst. eapply lookup_lt_Some, Hr.
Qed.

Lemma bind_agree {A B} (f f' : A -> list B) (l : list A) :
  (forall x, x ∈ l -> f x = f' x) -> l ≫= f = l ≫= f'.
Proof.
  induction l as [|x l IH]; intros Hall; [reflexivity|].
  rewrite !bind_cons, IH, (Hall x) by (try left; intros y Hy; apply Hall; right; exact Hy).
  reflexivity.
Qed.

(** Once the budget covers the relationships not yet used, more budget
    finds no more paths. *)
Lemma trails_saturate d d' ns rs cur :
  used_rels g rs ->
  (length (rels g) - length rs <= d)%nat ->
  (length (rels g) - length rs <= d')%nat ->
  trails g d ns rs cur = trails g d' ns rs cur.
Proof.
  revert d' ns rs cur. induction d as [|d IH]; intros d' ns rs cur Hfr Hd Hd'.
  - destruct d' as [|d']; [reflexivity|]. simpl.
    destruct (steps g rs cur) as [|[i n] rest] eqn:Hs; [reflexivity|].
    assert (Hin : (i, n) ∈ steps g rs cur) by (rewrite Hs; left).
    pose proof (used_rels_length _ (used_rels_step _ _ _ _ Hfr Hin)) as Hlen.
    rewrite length_app in Hlen. simpl in Hlen. lia.
  - destruct d' as [|d'].
    + simpl. destruct (steps g rs cur) as [|[i n] rest] eqn:Hs; [reflexivity|].
      assert (Hin : (i, n) ∈ steps g rs cur) by (rewrite Hs; left).
      pose proof (used_rels_length _ (used_rels_step _ _ _ _ Hfr Hin)) as Hlen.
      rewrite length_app in Hlen. simpl in Hlen. lia.
    + simpl. apply bind_agree. intros [i n] Hin. f_equal.
      apply IH.
      * eapply used_rels_step; eassumption.
      * rewrite length_app. simpl. lia.
      * rewrite length_app. simpl. lia.
Qed.

Lemma used_rels_nil : used_rels g [].
Proof. split; [apply NoDup_nil_2 | intros i Hi; inversion Hi]. Qed.
End Saturation.

(** X6.  A path of the seeded walk uses no relationship twice, so it has at
    most as many hops as the store has relationships: for every
    [max_depth] at or above that number, [graph_walk_search] gives the very
    same outcome as for that number. *)
Theorem graph_walk_search_saturates `{VectorBackend} (r : retriever)
    (query : string) (start_urls : option (list string)) (max_depth : nat) :
  (length (rels (store (driver r))) <= max_depth)%nat ->
  graph_walk_search r query start_urls max_depth =
  graph_walk_search r query start_urls (length (rels (store (driver r)))).
Proof.
  intros Hd. unfold graph_walk_search.
  destruct (nonempty start_urls); [|reflexivity].
  unfold run. destruct (fault (driver r) QSeededWalk); [reflexivity|].
  simpl. do 2 f_equal. unfold seeded_walk, seeded_rows. do 2 f_equal.
  apply bind_agree. intros url _. apply bind_agree. intros start _.
  f_equal. apply trails_saturate; [apply used_rels_nil | simpl; lia..].
Qed.

Lemma graph_walk_search_saturates_witness :
  graph_walk_search (H := backend) (init (healthy cycle)) "cats" (Some ["PageA"]) 50 =
  graph_walk_search (H := backend) (init (healthy cycle)) "cats" (Some ["PageA"]) 4.
Proof.
  apply (graph_walk_search_saturates (H := backend) (init (healthy cycle)) "cats"
           (Some ["PageA"]) 50).
  simpl. lia.
Defined.

(** ** [multimodal_search] and its related assets *)

Section MultimodalMore.
Context `{VectorBackend}.
Implicit Types (r : retriever).

Lemma mapM_mret {A} (f : A -> outcome A) (l : list A) :
  (forall x, x ∈ l -> f x = Ret x) -> mapM f l = Ret l.
Proof.
  induction l as [|x l IH]; intros Hall; simpl; [reflexivity|].
  rewrite (Hall x) by left. simpl. rewrite IH; [reflexivity|].
  intros y Hy. apply Hall. right. exact Hy.
Qed.

(** X7.  Without assets asked for, [multimodal_search] is
    [semantic_search]: the same list or the same exception, and the
    related-assets query is never run. *)
Theorem multimodal_search_without_assets r (query : string) (top_k : nat) :
  multimodal_search r query false top_k = semantic_search r query top_k.
Proof.
  unfold multimodal_search.
  destruct (semantic_search r query top_k) as [sem|e]; simpl; [|reflexivity].
  apply mapM_mret. intros c _. unfold enhance.
  rewrite andb_false_r. reflexivity.
Qed.

Lemma semantic_search_no_assets r (query : string) (top_k : nat) sem c :
  semantic_search r query top_k = Ret sem -> c ∈ sem -> related_assets c = None.
Proof.
  unfold semantic_search. destruct (faiss_index r) as [vectors|]; [|discriminate].
  intros Hs Hc. apply bind_Ret_inv in Hs as (ids & _ & Hs).
  apply bind_Ret_inv in Hs as (rows & _ & Hs). injection Hs as <-.
  apply list_elem_of_omap in Hc as ([s cid] & _ & Hc).
  destruct (_ !! cid) as [data|]; [|discriminate]. injection Hc as <-. reflexivity.
Qed.

Lemma related_assets_of_length (page_url : option string) (g : graph) :
  (length (related_assets_of page_url g) <= 5)%nat.
Proof.
  unfold related_assets_of. destruct page_url as [url|]; simpl; [|lia].
  rewrite length_take. lia.
Qed.

(** X8.  In a list returned by [multimodal_search], a chunk carries related
    assets only if it is a page chunk and assets were asked for; it then
    carries the first five assets that the store lists for its url, and
    [None] rather than an empty list when there are none. *)
Theorem multimodal_search_related_assets r (query : string)
    (include_assets : bool) (top_k : nat) (out : list RetrievedChunk)
    (c : RetrievedChunk) :
  multimodal_search r query include_assets top_k = Ret out -> c ∈ out ->
  related_assets c =
    (if bool_decide (source_type c = "page") && include_assets
     then match related_assets_of (source_url c) (store (driver r)) with
          | [] => None
          | assets => Some assets
          end
     else None) /\
  (forall assets, related_assets c = Some assets ->
                  (1 <= length assets <= 5)%nat).
Proof.
  intros Hm Hc. unfold multimodal_search in Hm.
  apply bind_Ret_inv in Hm as (sem & Hs & Hm). apply mapM_Ret_inv in Hm.
  apply list_elem_of_lookup in Hc as [i Hi].
  destruct (Forall2_lookup_r _ _ _ _ _ Hm Hi) as (s & Hsi & He).
  assert (Hnone : related_assets s = None).
  { eapply semantic_search_no_assets; [exact Hs|].
    apply list_elem_of_lookup. eauto. }
  unfold enhance, run in He.
  assert (Hshape :
    related_assets c =
    (if bool_decide (source_type c = "page") && include_assets
     then match related_assets_of (source_url c) (store (driver r)) with
          | [] => None
          | assets => Some assets
          end
     else None)).
  { destruct (bool_decide (source_type s = "page") && include_assets) eqn:Hb.
    - destruct (fault (driver r) QRelatedAssets); [discriminate|].
      simpl in He. injection He as <-. simpl. rewrite Hb.
      destruct (related_assets_of (source_url s) (store (driver r))); reflexivity.
    - injection He as <-. rewrite Hb. exact Hnone. }
  split; [exact Hshape|]. intros assets Ha. rewrite Hshape in Ha.
  destruct (bool_decide (source_type c = "page") && include_assets); [|discriminate].
  pose proof (related_assets_of_length (source_url c) (store (driver r))) as Hlen.
  destruct (related_assets_of (source_url c) (store (driver r))) as [|a l];
    [discriminate|].
  injection Ha as <-. simpl in *. lia.
Qed.
End MultimodalMore.

Lemma multimodal_search_related_assets_witness :
  exists out c,
    multimodal_search (H := backend) MoreExamples.small "cats" true 2 = Ret out /\
    c ∈ out /\ related_assets c = None.
Proof.
  destruct (multimodal_search (H := backend) MoreExamples.small "cats" true 2)
    as [out|e] eqn:Hm; [|vm_compute in Hm; discriminate Hm].
  destruct out as [|c out]; [vm_compute in Hm; discriminate Hm|].
  exists (c :: out), c. split; [reflexivity|]. split; [left|].
  destruct (multimodal_search_related_assets (H := backend) MoreExamples.small "cats"
              true 2 (c :: out) c Hm) as [Hshape _]; [left|].
  rewrite Hshape. vm_compute in Hm. injection Hm as <- _. vm_compute. reflexivity.
Defined.

(** ** Which chunk the fusion step returns, and how many *)

Section FusionMore.
Implicit Types (st : fusion_state) (c : RetrievedChunk) (k : option string).

Lemma set_context_path_same c : set_context_path c (context_path c) = c.
Proof. destruct c; reflexivity. Qed.

Lemma foldl_add_semantic_chunk w st sem k :
  (foldl (add_semantic w) st sem).2 !! k =
  match last (filter (fun x => chunk_id x = k) sem) with
  | Some s => Some s
  | None => st.2 !! k
  end.
Proof.
  revert st. induction sem as [|x sem IH]; intros st; [reflexivity|].
  simpl. rewrite IH, filter_cons. simpl.
  destruct (decide (chunk_id x = k)) as [<-|Hne].
  - rewrite lookup_insert_eq, last_cons.
    destruct (last (filter _ sem)); reflexivity.
  - rewrite lookup_insert_ne by exact Hne. reflexivity.
Qed.

Lemma foldl_add_graph_chunk w st gr k :
  (foldl (add_graph w) st gr).2 !! k =
  settle (st.2 !! k) (filter (fun x => chunk_id x = k) gr).
Proof.
  revert st. induction gr as [|x gr IH]; intros st; [reflexivity|].
  simpl. rewrite IH, filter_cons. simpl.
  destruct (decide (chunk_id x = k)) as [<-|Hne].
  - simpl. destruct (st.2 !! chunk_id x) as [old|] eqn:Hold.
    + destruct (nonempty (context_path x) && negb (nonempty (context_path old))).
      * rewrite lookup_insert_eq. reflexivity.
      * rewrite Hold. reflexivity.
    + rewrite lookup_insert_eq. reflexivity.
  - destruct (st.2 !! chunk_id x) as [old|] eqn:Hold.
    + destruct (nonempty (context_path x) && negb (nonempty (context_path old))).
      * rewrite lookup_insert_ne by exact Hne. reflexivity.
      * reflexivity.
    + rewrite lookup_insert_ne by exact Hne. reflexivity.
Qed.

Lemma settle_Some (old : RetrievedChunk) (grk : list RetrievedChunk) :
  settle (Some old) grk = Some (set_context_path old (merged_path old grk)).
Proof.
  revert old. induction grk as [|x grk IH]; intros old; simpl.
  - unfold merged_path. simpl.
    destruct (nonempty (context_path old)); rewrite set_context_path_same; reflexivity.
  - rewrite IH. unfold merged_path. rewrite filter_cons.
    destruct (nonempty (context_path old)) eqn:Ho; simpl.
    + rewrite andb_false_r, Ho. reflexivity.
    + rewrite andb_true_r.
      destruct (nonempty (context_path x)) eqn:Hx; simpl.
      * rewrite Hx. reflexivity.
      * try rewrite decide_False by discriminate. rewrite ?Ho. reflexivity.
Qed.

Lemma settle_None (grk : list RetrievedChunk) :
  settle None grk =
  match grk with
  | [] => None
  | x :: _ => Some (set_context_path x (merged_path x grk))
  end.
Proof.
  destruct grk as [|x rest]; [reflexivity|]. simpl. rewrite settle_Some.
  f_equal. f_equal. unfold merged_path. rewrite filter_cons.
  destruct (nonempty (context_path x)) eqn:Hx; [reflexivity|].
  rewrite decide_False by discriminate. reflexivity.
Qed.

Lemma fuse_elem_chunk sem gr sw gw top_k out c :
  fuse sem gr sw gw top_k = Ret out -> c ∈ out ->
  exists ch, (accumulate sem gr sw gw).2 !! chunk_id c = Some ch /\
             c = set_score ch (score c).
Proof.
  unfold fuse. pose proof (accumulate_filed sem gr sw gw) as [Hid _].
  destruct (accumulate sem gr sw gw) as [scores chunks]. simpl in *.
  intros Hm Hc. apply mapM_Ret_inv in Hm.
  apply list_elem_of_lookup in Hc as [i Hi].
  destruct (Forall2_lookup_r _ _ _ _ _ Hm Hi) as ([k v] & _ & Hk).
  destruct (chunks !! k) as [ch|] eqn:Hch; [|discriminate].
  injection Hk as <-. simpl. rewrite (Hid _ _ Hch). eauto.
Qed.

(** X9.  A chunk returned by the fusion step is, apart from its score and
    context path, the last semantic result with its id, or, if no semantic
    result has that id, the first graph result with it.  Its context path is
    that chunk's own when non-empty, else the first non-empty path among the
    graph results with the id, else its own. *)
Theorem fuse_provenance sem gr sw gw top_k out c :
  fuse sem gr sw gw top_k = Ret out -> c ∈ out ->
  let semk := filter (fun x => chunk_id x = chunk_id c) sem in
  let grk := filter (fun x => chunk_id x = chunk_id c) gr in
  exists base,
    (last semk = Some base \/ (semk = [] /\ head grk = Some base)) /\
    c = set_score (set_context_path base (merged_path base grk)) (score c).
Proof.
  intros Hf Hc semk grk.
  destruct (fuse_elem_chunk _ _ _ _ _ _ _ Hf Hc) as (ch & Hch & Heq).
  unfold accumulate in Hch.
  rewrite foldl_add_graph_chunk, foldl_add_semantic_chunk in Hch.
  fold semk grk in Hch. simpl in Hch.
  destruct (last semk) as [s|] eqn:Hlast.
  - rewrite settle_Some in Hch. injection Hch as <-. exists s. auto.
  - rewrite lookup_empty, settle_None in Hch.
    destruct grk as [|g0 rest] eqn:Hgrk; [discriminate|].
    injection Hch as <-. exists g0. split; [|exact Heq].
    right. split; [|reflexivity].
    destruct semk as [|y l]; [reflexivity|].
    exfalso. clear -Hlast. revert y Hlast.
    induction l as [|z l IH]; intros y Hlast; [discriminate|].
    apply (IH z). exact Hlast.
Qed.

Lemma elem_of_foldl_note seen ids k :
  k ∈ foldl note seen ids <-> k ∈ seen \/ k ∈ ids.
Proof.
  revert seen. induction ids as [|x ids IH]; intros seen; simpl.
  - split; [auto|]. intros [Hk|Hk]; [exact Hk | inversion Hk].
  - rewrite IH. unfold note. destruct (decide (x ∈ seen)) as [Hx|Hx].
    + rewrite elem_of_cons. split; [intros [?|?]; auto|].
      intros [?|[->|?]]; auto.
    + rewrite elem_of_app, list_elem_of_singleton, elem_of_cons. tauto.
Qed.

(** X10.  The fusion step returns exactly [min top_k n] chunks, where [n] is
    the number of distinct chunk ids among the two inputs; every returned id
    comes from the inputs, and when [top_k] is at least [n] every id of the
    inputs is returned. *)
Theorem fuse_size sem gr sw gw top_k :
  let ids := chunk_id <$> (sem ++ gr) in
  exists out,
    fuse sem gr sw gw top_k = Ret out /\
    length out = (top_k `min` length (first_seen ids))%nat /\
    (forall c, c ∈ out -> chunk_id c ∈ ids) /\
    ((length (first_seen ids) <= top_k)%nat ->
     forall k, k ∈ ids -> k ∈ chunk_id <$> out).
Proof.
  intros ids. destruct (fuse_returns sem gr sw gw top_k) as [out Hret].
  exists out. split; [exact Hret|].
  pose proof (fuse_pairs _ _ _ _ _ _ Hret) as Hf.
  assert (Hkeys : (sorted_desc snd (accumulate sem gr sw gw).1).*1 ≡ₚ first_seen ids).
  { rewrite (sorted_desc_perm snd). rewrite accumulate_keys. reflexivity. }
  assert (Hlen : length (sorted_desc snd (accumulate sem gr sw gw).1)
                 = length (first_seen ids)).
  { rewrite <- (length_fmap fst). rewrite Hkeys. reflexivity. }
  assert (Hids : chunk_id <$> out = (take top_k (sorted_desc snd (accumulate sem gr sw gw).1)).*1).
  { rewrite <- Hf, <- list_fmap_compose. reflexivity. }
  split; [|split].
  - rewrite <- (length_fmap id_and_score), Hf, length_take, Hlen. reflexivity.
  - intros c Hc.
    assert (Hin : chunk_id c ∈ first_seen ids).
    { rewrite <- Hkeys. apply (list_elem_of_fmap_2 chunk_id) in Hc.
      rewrite Hids in Hc. apply list_elem_of_fmap in Hc as (p & -> & Hp).
      apply list_elem_of_fmap. exists p. split; [reflexivity|].
      apply elem_of_take in Hp as (i & Hi & _). apply list_elem_of_lookup. eauto. }
    apply elem_of_foldl_note in Hin as [Hin|Hin]; [inversion Hin | exact Hin].
  - intros Hk k Hin. rewrite Hids, take_ge by lia. rewrite Hkeys.
    apply elem_of_foldl_note. right. exact Hin.
Qed.
End FusionMore.

Lemma fuse_provenance_witness :
  let s := mk "X" (9#10) in
  let g := set_context_path (mk "X" (5#10)) (Some [Some "PageA"; Some "PageB"]) in
  exists out c,
    fuse [s] [g] (7#10) (3#10) 10 = Ret out /\ c ∈ out /\
    c = set_score (set_context_path s (Some [Some "PageA"; Some "PageB"])) (score c).
Proof.
  intros s g.
  destruct (fuse [s] [g] (7#10) (3#10) 10) as [out|e] eqn:Hf;
    [|vm_compute in Hf; discriminate Hf].
  destruct out as [|c out]; [vm_compute in Hf; discriminate Hf|].
  exists (c :: out), c. split; [reflexivity|]. split; [left|].
  destruct (fuse_provenance [s] [g] (7#10) (3#10) 10 (c :: out) c Hf)
    as (base & Hbase & Heq); [left|].
  assert (Hid : chunk_id c = Some "X").
  { vm_compute in Hf. injection Hf as <- _. reflexivity. }
  rewrite Hid in Hbase, Heq. vm_compute in Hbase.
  destruct Hbase as [Hb|[Hb _]]; [|discriminate Hb].
  injection Hb as <-. exact Heq.
Defined.
